(** * Transcode orchestration pipeline of [index.ts]

    A shallow embedding of the upload handler of the service: the probe
    ([getVideoResolution]), the rendition catalog ([resolutions]) and the
    ladder filter, the parallel encode step ([transcodeVideo]), the
    sequential publish loop and the clean-up of the uploaded file.

    External collaborators (ffprobe, ffmpeg, the Pinata store, the clock,
    [fs.unlinkSync]) are oracles gathered in a record [Env]; the handler is
    written in a small state-and-exception monad over a [World] that holds
    the file system, the clock position, the effects performed so far and
    the console.  Numbers are integers ([Z]); [NaN] is [None] where
    [parseInt] can produce it.  The concurrent ffmpeg commands of one
    request are ordered by the instant at which each fires its terminal
    event, which the oracle chooses. *)

From Stdlib Require Import ZArith Ascii String List Lia.
From Stdlib Require Import DecimalString DecimalPos DecimalZ.
From stdpp Require Import base option list gmap strings sets.

Import ListNotations.
Local Open Scope string_scope.
Local Open Scope Z_scope.
Local Open Scope list_scope.

(** ** JavaScript string helpers *)

Module Js.

(** [s.split(sep)] for a one-character separator: the pieces between the
    occurrences of [sep]; never the empty array. *)
Fixpoint split (sep : ascii) (s : string) : list string :=
  match s with
  | EmptyString => [EmptyString]
  | String c rest =>
      if Ascii.eqb c sep then EmptyString :: split sep rest
      else match split sep rest with
           | [] => [String c EmptyString]
           | piece :: pieces => String c piece :: pieces
           end
  end.

(** ASCII white space skipped by [parseInt] (TAB, LF, VT, FF, CR, SP). *)
Definition is_space (c : ascii) : bool :=
  let n := nat_of_ascii c in
  ((9 <=? n)%nat && (n <=? 13)%nat) || (n =? 32)%nat.

Fixpoint trim_start (s : string) : string :=
  match s with
  | String c rest => if is_space c then trim_start rest else s
  | EmptyString => s
  end.

(** Value of a character as a digit in [radix] (10 or 16). *)
Definition digit_value (radix : Z) (c : ascii) : option Z :=
  let n := Z.of_nat (nat_of_ascii c) in
  let v :=
    if (48 <=? n) && (n <=? 57) then Some (n - 48)
    else if (97 <=? n) && (n <=? 102) then Some (n - 87)
    else if (65 <=? n) && (n <=? 70) then Some (n - 55)
    else None in
  match v with
  | Some d => if d <? radix then Some d else None
  | None => None
  end.

(** The longest prefix of digits, read in [radix]; [acc] is the value read
    so far, [None] while no digit has been seen. *)
Fixpoint digits (radix : Z) (s : string) (acc : option Z) : option Z :=
  match s with
  | EmptyString => acc
  | String c rest =>
      match digit_value radix c with
      | Some d => digits radix rest (Some (radix * default 0 acc + d))
      | None => acc
      end
  end.

(** [parseInt(s)] without a radix argument; [None] is [NaN].  The result
    is exact: it is the JavaScript result wherever that is an integer of
    magnitude at most 2^53, as every height of the catalog and of a video
    stream is; beyond, a JavaScript number rounds. *)
Definition parseInt (s : string) : option Z :=
  let s1 := trim_start s in
  let '(sign, s2) :=
    match s1 with
    | String "-" rest => (-1, rest)
    | String "+" rest => (1, rest)
    | _ => (1, s1)
    end in
  let '(radix, s3) :=
    match s2 with
    | String "0" (String "x" rest) => (16, rest)
    | String "0" (String "X" rest) => (16, rest)
    | _ => (10, s2)
    end in
  Z.mul sign <$> digits radix s3 None.

(** [parseInt(undefined)] is [NaN]. *)
Definition parseInt_opt (s : option string) : option Z :=
  s ≫= parseInt.

(** [a <= b] on numbers, where [a] may be [NaN]. *)
Definition le (a : option Z) (b : Z) : bool :=
  match a with
  | Some x => x <=? b
  | None => false
  end.

(** [a === b] on numbers, where [a] may be [NaN]. *)
Definition strict_eq (a : option Z) (b : Z) : bool :=
  match a with
  | Some x => x =? b
  | None => false
  end.

(** Template-literal rendering of an integer-valued number. *)
Definition string_of_Z (z : Z) : string :=
  NilZero.string_of_int (Z.to_int z).

(** [needle] occurs in [hay]. *)
Definition includes (hay needle : string) : Prop :=
  ∃ before after, hay = before +:+ needle +:+ after.

End Js.

(** ** The rendition catalog *)

Record Resolution := mkResolution {
  name : string;
  size : string;
  bitrate : string;
}.

Definition resolutions : list Resolution := [
  mkResolution "1080p" "1920x1080" "5000k";
  mkResolution "720p" "1280x720" "2500k";
  mkResolution "480p" "854x480" "1000k";
  mkResolution "360p" "640x360" "600k"
].

(** ** Ladder selection (the filter of [transcodeVideo]) *)

(** [parseInt(size.split("x")[1])] *)
Definition frame_height (r : Resolution) : option Z :=
  Js.parseInt_opt (Js.split "x" (size r) !! 1%nat).

(** [height <= inputHeight || height === inputHeight] *)
Definition keep_resolution (inputHeight : Z) (r : Resolution) : bool :=
  let height := frame_height r in
  Js.le height inputHeight || Js.strict_eq height inputHeight.

(** [catalog.filter(...)], for any catalog. *)
Definition select_ladder (catalog : list Resolution) (inputHeight : Z)
  : list Resolution :=
  List.filter (keep_resolution inputHeight) catalog.

Definition availableResolutions (inputHeight : Z) : list Resolution :=
  select_ladder resolutions inputHeight.

(** The selector of the specification: the single comparison [h <= H]. *)
Definition keep_resolution_le (inputHeight : Z) (r : Resolution) : bool :=
  Js.le (frame_height r) inputHeight.

Definition select_ladder_le (catalog : list Resolution) (inputHeight : Z)
  : list Resolution :=
  List.filter (keep_resolution_le inputHeight) catalog.

(** ** Values of the handler *)

(** What the code throws or rejects with: an [Error] instance (from ffprobe,
    ffmpeg, axios or [fs]) or, at one place, a bare string. *)
Inductive Thrown :=
| ErrorObject (message : string)
| StringValue (text : string).

(** [error.message]: [undefined] on a string. *)
Definition message_of (error : Thrown) : option string :=
  match error with
  | ErrorObject message => Some message
  | StringValue _ => None
  end.

(** One entry of [metadata.streams]. *)
Record Stream := mkStream {
  codec_type : option string;
  height : option Z;
}.

(** One [ffmpeg(inputFile)...output(outputFilePath).run()] command. *)
Record EncodeJob := mkJob {
  spec : Resolution;
  inputPath : string;
  outputFileName : string;
  outputFilePath : string;
}.

(** An element of [transcodedFiles]: [{ name, path }]. *)
Module Transcoded.
Record t := mk { name : string; path : string }.
End Transcoded.

(** The value stored under a key of [ipfsCIDs]: [{ videoCID }]. *)
Record Pinned := mkPinned { videoCID : string }.

(** JSON bodies sent by the handler.  A key whose value is [undefined] is
    dropped by [res.json], so [details] is optional. *)
Inductive Body :=
| ErrorBody (error : string) (details : option string)
| CompleteBody (message : string) (files : gmap string Pinned).

(** Calls that leave the process, in the order they are made. *)
Inductive Effect :=
| Probe (filePath : string)
| Mkdir (folder : string)
| Encode (job : EncodeJob)
| Store (filePath : string)
| Unlink (filePath : string)
| Respond (status : Z) (body : Body).

(** Lines written by [console.log] and [console.error]. *)
Inductive LogLine :=
| LogMetadata (streams : list Stream)
| LogAvailable (ladder : list Resolution)
| LogTranscoded (rendition : string)
| LogFfmpegError (rendition message : string)
| LogPinataResponse (ipfsHash : string)
| LogPinataError (message : string)
| LogReceived (inputFile : string)
| LogDetected (inputHeight : Z)
| LogUploading (fileName : string)
| LogAllUploaded (ipfsCIDs : gmap string Pinned)
| LogError (message : option string)
| LogDeleted (inputFile : string)
| LogCleanupError (cleanupError : Thrown).

(** ** The world and the oracles *)

Record World := mkWorld {
  clock : nat;               (* readings of [Date.now()] taken so far *)
  disk : gset string;        (* paths that exist *)
  effects : list Effect;     (* oldest first *)
  console : list LogLine;    (* oldest first *)
}.

(** Each oracle describes a call that completes, with a result or with an
    error.  A collaborator that never calls back has no value here: the
    runs described are those in which every call made is answered. *)
Record Env := mkEnv {
  (* the n-th reading of [Date.now()] *)
  date_now : nat → Z;
  (* [ffmpeg.ffprobe]: [err.message], or [metadata.streams] *)
  ffprobe : string → string + list Stream;
  (* a command's terminal event: the instant it fires, and [None] for
     "end" or the [err.message] of "error" *)
  ffmpeg : EncodeJob → nat * option string;
  (* the POST to Pinata: the error's message, or [response.data.IpfsHash],
     taken to be a string; the code forwards it unchecked, empty or not *)
  pinata : string → string + string;
  (* [fs.unlinkSync]: the message of the exception it throws, if any *)
  unlink : string → option string;
}.

(** ** A state and exception monad *)

Definition M (A : Type) : Type := World → (Thrown + A) * World.

#[global] Instance M_ret : MRet M := λ A x w, (inr x, w).

#[global] Instance M_bind : MBind M := λ A B f m w,
  match m w with
  | (inr x, w') => f x w'
  | (inl error, w') => (inl error, w')
  end.

Definition throw {A} (error : Thrown) : M A := λ w, (inl error, w).

(** [try { body } catch (error) { handler }] *)
Definition try_catch {A} (body : M A) (handler : Thrown → M A) : M A :=
  λ w, match body w with
       | (inl error, w') => handler error w'
       | done => done
       end.

(** [try { body } finally { final }] *)
Definition try_finally {A} (body : M A) (final : M unit) : M A :=
  λ w, let '(result, w') := body w in
       match final w' with
       | (inl error, w'') => (inl error, w'')
       | (inr _, w'') => (result, w'')
       end.

Definition when (b : bool) (m : M unit) : M unit :=
  if b then m else mret tt.

(** Primitive actions on the world. *)

Definition perform (e : Effect) : M unit :=
  λ w, (inr tt, mkWorld (clock w) (disk w) (effects w ++ [e]) (console w)).

Definition log (line : LogLine) : M unit :=
  λ w, (inr tt, mkWorld (clock w) (disk w) (effects w) (console w ++ [line])).

Definition create (p : string) : M unit :=
  λ w, (inr tt, mkWorld (clock w) ({[p]} ∪ disk w) (effects w) (console w)).

Definition remove (p : string) : M unit :=
  λ w, (inr tt, mkWorld (clock w) (disk w ∖ {[p]}) (effects w) (console w)).

(** [fs.existsSync(p)] *)
Definition existsSync (p : string) : M bool :=
  λ w, (inr (bool_decide (p ∈ disk w)), w).

(** [fs.mkdirSync(p)].  The call is taken to succeed: the output root
    exists since start-up, and the folder has just been tested absent. *)
Definition mkdirSync (p : string) : M unit :=
  perform (Mkdir p);; create p.

(** [path.join(a, b)] for a normalised [a] and a plain file name [b]. *)
Definition path_join (a b : string) : string := a +:+ "/" +:+ b.

(** ** The program *)

Section Program.

Variable env : Env.
(** [path.resolve("output")] *)
Variable outputDir : string.

(** [Date.now()] *)
Definition Date_now : M Z :=
  λ w, (inr (date_now env (clock w)),
        mkWorld (S (clock w)) (disk w) (effects w) (console w)).

(** [fs.unlinkSync(p)] *)
Definition unlinkSync (p : string) : M unit :=
  perform (Unlink p);;
  match unlink env p with
  | Some message => throw (ErrorObject message)
  | None => remove p
  end.

(** *** Probe *)

Definition is_video (s : Stream) : bool :=
  bool_decide (codec_type s = Some "video").

(** Truthiness of [videoStream.height]: present and not zero. *)
Definition truthy_height (s : Stream) : option Z :=
  match height s with
  | Some h => if h =? 0 then None else Some h
  | None => None
  end.

Definition getVideoResolution (filePath : string) : M Z :=
  perform (Probe filePath);;
  match ffprobe env filePath with
  | inl message => throw (ErrorObject message)
  | inr streams =>
      log (LogMetadata streams);;
      let videoStream := List.find is_video streams in
      match videoStream ≫= truthy_height with
      | Some h => mret h
      | None => throw (StringValue "Could not determine video resolution.")
      end
  end.

(** *** Parallel encode *)

(** The command built by the executor of one promise, for the reading
    [timestamp] of the clock. *)
Definition encode_job (inputFile outputFolder : string) (r : Resolution)
    (timestamp : Z) : EncodeJob :=
  let outputFileName :=
    "video_" +:+ name r +:+ "_" +:+ Js.string_of_Z timestamp +:+ ".mp4" in
  let outputFilePath := path_join outputFolder outputFileName in
  mkJob r inputFile outputFileName outputFilePath.

(** The executor up to [.run()]: it reads the clock, names the output and
    starts the command. *)
Definition launch (inputFile outputFolder : string) (r : Resolution)
  : M EncodeJob :=
  timestamp ← Date_now;
  let job := encode_job inputFile outputFolder r timestamp in
  perform (Encode job);;
  mret job.

(** The order in which the commands fire their terminal event: by instant,
    launch order among equal instants. *)
Fixpoint insert_by_instant (job : EncodeJob) (sorted : list EncodeJob)
  : list EncodeJob :=
  match sorted with
  | [] => [job]
  | other :: rest =>
      if (fst (ffmpeg env other) <? fst (ffmpeg env job))%nat
      then other :: insert_by_instant job rest
      else job :: other :: rest
  end.

Definition completion_order (jobs : list EncodeJob) : list EncodeJob :=
  foldr insert_by_instant [] jobs.

(** [await Promise.all(...)]: the terminal events are handled in completion
    order.  "end" pushes onto [transcodedFiles] and resolves the job's
    promise; the first "error" rejects the aggregate, and the awaiting
    function resumes with that rejection while the other commands keep
    running unobserved.  The "progress" events only write to the console
    and are left out. *)
Fixpoint settle (pending : list EncodeJob)
    (transcodedFiles : list Transcoded.t) : M (list Transcoded.t) :=
  match pending with
  | [] => mret transcodedFiles
  | job :: rest =>
      match snd (ffmpeg env job) with
      | None =>
          log (LogTranscoded (name (spec job)));;
          create (outputFilePath job);;
          settle rest
            (transcodedFiles ++
             [Transcoded.mk (outputFileName job) (outputFilePath job)])
      | Some message =>
          log (LogFfmpegError (name (spec job)) message);;
          throw (ErrorObject message)
      end
  end.

(** The fan-out over a ladder and the join. *)
Definition encode_all (inputFile outputFolder : string)
    (ladder : list Resolution) : M (list Transcoded.t) :=
  jobs ← mapM (launch inputFile outputFolder) ladder;
  settle (completion_order jobs) [].

Definition transcodeVideo (inputFile outputFolder : string)
    (inputHeight : Z) : M (list Transcoded.t) :=
  present ← existsSync outputFolder;
  when (negb present) (mkdirSync outputFolder);;
  let available := availableResolutions inputHeight in
  log (LogAvailable available);;
  encode_all inputFile outputFolder available.

(** *** Publish *)

Definition uploadToPinata (filePath : string) : M string :=
  perform (Store filePath);;
  match pinata env filePath with
  | inr ipfsHash => log (LogPinataResponse ipfsHash);; mret ipfsHash
  | inl message => log (LogPinataError message);; throw (ErrorObject message)
  end.

(** The [for ... of transcodedFiles] loop of the handler.  The assignment
    [ipfsCIDs[name] = ...] is a map insertion for every name but
    ["__proto__"], which on a plain object sets the prototype instead; the
    handler's names all start with ["video_"]. *)
Fixpoint publish (transcodedFiles : list Transcoded.t)
    (ipfsCIDs : gmap string Pinned) : M (gmap string Pinned) :=
  match transcodedFiles with
  | [] => mret ipfsCIDs
  | file :: rest =>
      log (LogUploading (Transcoded.name file));;
      cid ← uploadToPinata (Transcoded.path file);
      publish rest (<[Transcoded.name file := mkPinned cid]> ipfsCIDs)
  end.

(** *** The handler of [POST /upload] *)

(** The statements of the [try] block before the response. *)
Definition pipeline (inputFile outputFolder : string)
  : M (gmap string Pinned) :=
  log (LogReceived inputFile);;
  inputHeight ← getVideoResolution inputFile;
  log (LogDetected inputHeight);;
  transcodedFiles ← transcodeVideo inputFile outputFolder inputHeight;
  publish transcodedFiles ∅.

Definition respond_complete (ipfsCIDs : gmap string Pinned) : M unit :=
  log (LogAllUploaded ipfsCIDs);;
  perform (Respond 200 (CompleteBody "Processing complete" ipfsCIDs)).

Definition respond_failed (error : Thrown) : M unit :=
  log (LogError (message_of error));;
  perform (Respond 500 (ErrorBody "Processing failed" (message_of error))).

(** The [finally] block. *)
Definition cleanup (inputFile : string) : M unit :=
  try_catch
    (present ← existsSync inputFile;
     when present (unlinkSync inputFile;; log (LogDeleted inputFile)))
    (λ cleanupError, log (LogCleanupError cleanupError)).

(** [req_file] is [req.file?.path]. *)
Definition upload_handler (req_file : option string) : M unit :=
  match req_file with
  | None => perform (Respond 400 (ErrorBody "No file uploaded" None))
  | Some inputFile =>
      now ← Date_now;
      let outputFolder := path_join outputDir (Js.string_of_Z now) in
      try_finally
        (try_catch
           (ipfsCIDs ← pipeline inputFile outputFolder;
            respond_complete ipfsCIDs)
           respond_failed)
        (cleanup inputFile)
  end.

End Program.

(** ** Reading a run *)

Definition responses (es : list Effect) : list (Z * Body) :=
  omap (λ e, match e with Respond s b => Some (s, b) | _ => None end) es.

Definition stores (es : list Effect) : list string :=
  omap (λ e, match e with Store p => Some p | _ => None end) es.

Definition encodes (es : list Effect) : list EncodeJob :=
  omap (λ e, match e with Encode j => Some j | _ => None end) es.

Definition unlinks (es : list Effect) : list string :=
  omap (λ e, match e with Unlink p => Some p | _ => None end) es.

(** ** What a run is expected to be

    The definitions below describe runs of the program above in closed
    form; each is related to the program by a lemma of the second part. *)

(** The folder of a request that starts in world [w]. *)
Definition request_folder (env : Env) (outputDir : string) (w : World)
  : string :=
  path_join outputDir (Js.string_of_Z (date_now env (clock w))).

(** The commands launched for a ladder when the clock has been read [n]
    times: one per entry, in ladder order, each with the next reading. *)
Fixpoint launched (env : Env) (inputFile outputFolder : string)
    (ladder : list Resolution) (n : nat) : list EncodeJob :=
  match ladder with
  | [] => []
  | r :: rest =>
      encode_job inputFile outputFolder r (date_now env n)
      :: launched env inputFile outputFolder rest (S n)
  end.

(** The entry pushed onto [transcodedFiles] when a command ends. *)
Definition transcoded (job : EncodeJob) : Transcoded.t :=
  Transcoded.mk (outputFileName job) (outputFilePath job).

(** The outcome of the probe, which does not depend on the world. *)
Definition probe_outcome (env : Env) (filePath : string) : Thrown + Z :=
  fst (getVideoResolution env filePath (mkWorld 0 ∅ [] [])).

(** The lines the probe writes to the console. *)
Definition probe_lines (env : Env) (filePath : string) : list LogLine :=
  match ffprobe env filePath with
  | inl _ => []
  | inr streams => [LogMetadata streams]
  end.

(** The files the publish loop submits: up to and including the first one
    the store refuses. *)
Fixpoint attempted (env : Env) (transcodedFiles : list Transcoded.t)
  : list Transcoded.t :=
  match transcodedFiles with
  | [] => []
  | file :: rest =>
      match pinata env (Transcoded.path file) with
      | inr _ => file :: attempted env rest
      | inl _ => [file]
      end
  end.

(** The mapping built from the files the store accepted. *)
Definition published (env : Env) (transcodedFiles : list Transcoded.t)
    (ipfsCIDs : gmap string Pinned) : gmap string Pinned :=
  foldl (λ cids file,
           match pinata env (Transcoded.path file) with
           | inr ipfsHash => <[Transcoded.name file := mkPinned ipfsHash]> cids
           | inl _ => cids
           end) ipfsCIDs transcodedFiles.

(** A command that ended without error. *)
Definition ended (env : Env) (job : EncodeJob) : Prop :=
  snd (ffmpeg env job) = None.

(** A file the store accepted. *)
Definition stored (env : Env) (file : Transcoded.t) : Prop :=
  is_Some (match pinata env (Transcoded.path file) with
           | inr ipfsHash => Some ipfsHash
           | inl _ => None
           end).

(** [w'] is reached from [w] by steps that neither respond nor unlink, and
    that remove nothing from the disk. *)
Definition extends (w w' : World) : Prop :=
  disk w ⊆ disk w'
  ∧ ∃ es, effects w' = effects w ++ es ∧ responses es = [] ∧ unlinks es = [].

Definition quiet {A} (m : M A) : Prop := ∀ w, extends w (snd (m w)).

(** The same oracles with another behaviour of [fs.unlinkSync]. *)
Definition with_unlink (env : Env) (u : string → option string) : Env :=
  mkEnv (date_now env) (ffprobe env) (ffmpeg env) (pinata env) u.

(** The response that the outcome of the pipeline determines. *)
Definition response_of (outcome : Thrown + gmap string Pinned) : Z * Body :=
  match outcome with
  | inr ipfsCIDs => (200, CompleteBody "Processing complete" ipfsCIDs)
  | inl error => (500, ErrorBody "Processing failed" (message_of error))
  end.

(** The world after the handler has read the clock for the folder name. *)
Definition ticked (w : World) : World :=
  mkWorld (S (clock w)) (disk w) (effects w) (console w).

(** The world after the handler has answered. *)
Definition answered (outcome : Thrown + gmap string Pinned) (w : World)
  : World :=
  mkWorld (clock w) (disk w)
    (effects w ++ [Respond (fst (response_of outcome)) (snd (response_of outcome))])
    (console w
     ++ [match outcome with
         | inr ipfsCIDs => LogAllUploaded ipfsCIDs
         | inl error => LogError (message_of error)
         end]).

(** Outcomes of the join and of the publish loop; neither depends on the
    world in which it runs. *)
Definition join_outcome (env : Env) (jobs : list EncodeJob)
  : Thrown + list Transcoded.t :=
  fst (settle env (completion_order env jobs) [] (mkWorld 0 ∅ [] [])).

Definition publish_outcome (env : Env) (transcodedFiles : list Transcoded.t)
  : Thrown + gmap string Pinned :=
  fst (publish env transcodedFiles ∅ (mkWorld 0 ∅ [] [])).

(** The commands of a request that starts in world [w] and whose probe
    returned [inputHeight]. *)
Definition request_jobs (env : Env) (outputDir inputFile : string)
    (inputHeight : Z) (w : World) : list EncodeJob :=
  launched env inputFile (request_folder env outputDir w)
    (availableResolutions inputHeight) (S (clock w)).

(** The outcome of the pipeline when it starts with the clock read [n]
    times. *)
Definition pipeline_outcome (env : Env) (inputFile outputFolder : string)
    (n : nat) : Thrown + gmap string Pinned :=
  match probe_outcome env inputFile with
  | inl error => inl error
  | inr inputHeight =>
      match join_outcome env
              (launched env inputFile outputFolder
                 (availableResolutions inputHeight) n) with
      | inl error => inl error
      | inr transcodedFiles => publish_outcome env transcodedFiles
      end
  end.

(** The effects of the pipeline when it starts in world [w]. *)
Definition pipeline_effects (env : Env) (inputFile outputFolder : string)
    (w : World) : list Effect :=
  Probe inputFile ::
  match probe_outcome env inputFile with
  | inl _ => []
  | inr inputHeight =>
      let jobs :=
        launched env inputFile outputFolder
          (availableResolutions inputHeight) (clock w) in
      (if bool_decide (outputFolder ∈ disk w) then [] else [Mkdir outputFolder])
      ++ map Encode jobs
      ++ match join_outcome env jobs with
         | inl _ => []
         | inr transcodedFiles =>
             map Store (map Transcoded.path (attempted env transcodedFiles))
         end
  end.

(** The world after the [finally] block. *)
Definition cleaned (env : Env) (inputFile : string) (w : World) : World :=
  if bool_decide (inputFile ∈ disk w) then
    match unlink env inputFile with
    | None =>
        mkWorld (clock w) (disk w ∖ {[inputFile]})
          (effects w ++ [Unlink inputFile])
          (console w ++ [LogDeleted inputFile])
    | Some message =>
        mkWorld (clock w) (disk w)
          (effects w ++ [Unlink inputFile])
          (console w ++ [LogCleanupError (ErrorObject message)])
    end
  else w.

(** No character of [s] is a slash. *)
Fixpoint slash_free (s : string) : Prop :=
  match s with
  | EmptyString => True
  | String c rest => c ≠ "/"%char ∧ slash_free rest
  end.

(** ** Sample requests *)

Module Sample.

Definition outputDir : string := "/srv/app/output".

Definition upload : string := "uploads/3f9a6c".

(** The disk once the upload has landed. *)
Definition start : World := mkWorld 0 {[upload]} [] [].

(** A clock that advances by one millisecond at each reading. *)
Definition ticking (n : nat) : Z := 1700000000000 + Z.of_nat n.

Definition streams_of (h : Z) : list Stream :=
  [mkStream (Some "audio") None; mkStream (Some "video") (Some h)].

(** The smaller renditions finish first. *)
Definition instant_of (job : EncodeJob) : nat :=
  Z.to_nat (default 0 (frame_height (spec job))).

(** Every collaborator succeeds on a source of height [h]. *)
Definition healthy (h : Z) : Env :=
  mkEnv ticking
    (λ _, inr (streams_of h))
    (λ job, (instant_of job, None))
    (λ p, inr ("Qm" +:+ p))
    (λ _, None).

(** The 720p command fails; the others end. *)
Definition encode_fails : Env :=
  mkEnv ticking
    (λ _, inr (streams_of 1080))
    (λ job, (instant_of job,
             if String.eqb (name (spec job)) "720p"
             then Some "ffmpeg exited with code 1" else None))
    (λ p, inr ("Qm" +:+ p))
    (λ _, None).

Definition file_360 : Transcoded.t :=
  Transcoded.mk "video_360p_1700000000004.mp4"
    "/srv/app/output/1700000000000/video_360p_1700000000004.mp4".

Definition file_480 : Transcoded.t :=
  Transcoded.mk "video_480p_1700000000003.mp4"
    "/srv/app/output/1700000000000/video_480p_1700000000003.mp4".

Definition file_720 : Transcoded.t :=
  Transcoded.mk "video_720p_1700000000002.mp4"
    "/srv/app/output/1700000000000/video_720p_1700000000002.mp4".

Definition file_1080 : Transcoded.t :=
  Transcoded.mk "video_1080p_1700000000001.mp4"
    "/srv/app/output/1700000000000/video_1080p_1700000000001.mp4".

(** The store accepts the first two files and refuses the third. *)
Definition store_fails : Env :=
  mkEnv ticking
    (λ _, inr (streams_of 1080))
    (λ job, (instant_of job, None))
    (λ p, if String.eqb p (Transcoded.path file_720)
          then inl "Request failed with status code 401"
          else inr ("Qm" +:+ p))
    (λ _, None).

(** The deletion of the upload fails. *)
Definition unlink_fails : Env :=
  with_unlink (healthy 1080) (λ _, Some "EPERM: operation not permitted").

(** The inspection finds no video stream. *)
Definition audio_only : Env :=
  mkEnv ticking
    (λ _, inr [mkStream (Some "audio") None])
    (λ job, (instant_of job, None))
    (λ p, inr ("Qm" +:+ p))
    (λ _, None).

(** Every reading of the clock falls in the same millisecond. *)
Definition same_millisecond : Env :=
  mkEnv (λ _, 1700000000000)
    (λ _, inr (streams_of 360))
    (λ job, (instant_of job, None))
    (λ p, inr ("Qm" +:+ p))
    (λ _, None).

(** The store accepts every file and answers with an empty [IpfsHash]. *)
Definition empty_identifier : Env :=
  mkEnv ticking
    (λ _, inr (streams_of 1080))
    (λ job, (instant_of job, None))
    (λ _, inr "")
    (λ _, None).

End Sample.

(** ** Start-up and further readings *)

(** The statements run when the module is loaded: the output root is
    created when it does not exist. *)
Definition startup (outputDir : string) : M unit :=
  present ← existsSync outputDir;
  when (negb present) (mkdirSync outputDir).

Definition probes (es : list Effect) : list string :=
  omap (λ e, match e with Probe p => Some p | _ => None end) es.

Definition mkdirs (es : list Effect) : list string :=
  omap (λ e, match e with Mkdir p => Some p | _ => None end) es.

(** The character [c] does not occur in [s]. *)
Fixpoint lacks (c : ascii) (s : string) : Prop :=
  match s with
  | EmptyString => True
  | String x rest => x ≠ c ∧ lacks c rest
  end.

(** How many entries at the head of the catalog are taller than the
    source. *)
Definition rung (inputHeight : Z) : nat :=
  if 1080 <=? inputHeight then 0
  else if 720 <=? inputHeight then 1
  else if 480 <=? inputHeight then 2
  else if 360 <=? inputHeight then 3
  else 4.

(** The last file of the list whose name is [key]. *)
Definition last_named (key : string) (transcodedFiles : list Transcoded.t)
  : option Transcoded.t :=
  foldl (λ found file,
           if String.eqb (Transcoded.name file) key then Some file else found)
    None transcodedFiles.

(** * Properties *)

(** ** Ladder selection *)

Lemma frame_heights :
  map frame_height resolutions = [Some 1080; Some 720; Some 480; Some 360].
Proof. reflexivity. Qed.

Lemma keep_resolution_le_iff H r h :
  frame_height r = Some h → keep_resolution H r = true ↔ h ≤ H.
Proof.
  intros Hh. unfold keep_resolution. rewrite Hh. simpl.
  rewrite orb_true_iff, Z.leb_le, Z.eqb_eq. lia.
Qed.

Lemma select_ladder_sublist catalog H :
  sublist (select_ladder catalog H) catalog.
Proof.
  unfold select_ladder. induction catalog as [|r catalog IH]; simpl.
  - constructor.
  - destruct (keep_resolution H r); by constructor.
Qed.

Lemma elem_of_select_ladder catalog H r :
  r ∈ select_ladder catalog H ↔ r ∈ catalog ∧ keep_resolution H r = true.
Proof.
  unfold select_ladder. rewrite !list_elem_of_In, filter_In. tauto.
Qed.

(** C1.  For every source height [H] and every catalog entry with frame
    height [h], the ladder contains the entry exactly when [h ≤ H]; the
    ladder keeps the catalog's order 1080p, 720p, 480p, 360p; for 1080 it is
    the whole catalog, for 500 it is 480p then 360p, for 100 it is empty. *)
Theorem ladder_selector (H : Z) (r : Resolution) (h : Z) :
  r ∈ resolutions →
  frame_height r = Some h →
  (r ∈ availableResolutions H ↔ h ≤ H)
  ∧ sublist (availableResolutions H) resolutions
  ∧ map name resolutions = ["1080p"; "720p"; "480p"; "360p"]
  ∧ availableResolutions 1080 = resolutions
  ∧ map name (availableResolutions 1080) = ["1080p"; "720p"; "480p"; "360p"]
  ∧ map name (availableResolutions 500) = ["480p"; "360p"]
  ∧ availableResolutions 100 = [].
Proof.
  intros Hr Hh. split; [|split; [apply select_ladder_sublist | done]].
  unfold availableResolutions. rewrite elem_of_select_ladder.
  rewrite (keep_resolution_le_iff H r h Hh). tauto.
Qed.

Lemma ladder_selector_witness :
  let r := mkResolution "480p" "854x480" "1000k" in
  r ∈ resolutions ∧ frame_height r = Some 480
  ∧ (r ∈ availableResolutions 500 ↔ 480 ≤ 500).
Proof.
  assert (Hin : mkResolution "480p" "854x480" "1000k" ∈ resolutions).
  { unfold resolutions. do 2 apply list_elem_of_further. apply list_elem_of_here. }
  split; [exact Hin | split; [reflexivity |]].
  exact (proj1 (ladder_selector 500 _ 480 Hin eq_refl)).
Defined.

(** Every catalog entry has a frame height, so the equivalence of C1 covers
    the whole catalog. *)
Lemma catalog_has_heights :
  Forall (λ r, is_Some (frame_height r)) resolutions.
Proof. repeat constructor; by eexists. Qed.

(** ** The redundant clause of the filter *)

Lemma keep_resolution_redundant H r :
  keep_resolution H r = keep_resolution_le H r.
Proof.
  unfold keep_resolution, keep_resolution_le.
  destruct (frame_height r) as [h|]; simpl; [|done].
  destruct (Z.leb_spec h H), (Z.eqb_spec h H); simpl; lia || done.
Qed.

(** C9.  On integers [h <= H || h === H] is the same test as [h <= H], so
    the selector written with the two clauses and the selector written with
    the single comparison return the same ladder for every catalog and
    every source height. *)
Theorem filter_predicate_equivalence :
  (∀ h H : Z, Js.le (Some h) H || Js.strict_eq (Some h) H = Js.le (Some h) H)
  ∧ (∀ H r, keep_resolution H r = keep_resolution_le H r)
  ∧ (∀ catalog H, select_ladder catalog H = select_ladder_le catalog H)
  ∧ (∀ H, availableResolutions H = select_ladder_le resolutions H).
Proof.
  assert (Hsel : ∀ catalog H, select_ladder catalog H = select_ladder_le catalog H).
  { intros catalog H. unfold select_ladder, select_ladder_le.
    induction catalog as [|r catalog IH]; simpl; [done|].
    by rewrite keep_resolution_redundant, IH. }
  split; [|split; [apply keep_resolution_redundant | split; [done|]]].
  - intros h H. simpl. destruct (Z.leb_spec h H), (Z.eqb_spec h H); simpl; lia || done.
  - intros H. apply Hsel.
Qed.

(** ** A request without a file *)

(** C10.  A request that carries no file is answered with status 400 and
    the body [{"error": "No file uploaded"}]; nothing else happens: the
    response is the only new effect (no probe, no encode, no store, no
    unlink), and the disk, the clock and the console are untouched. *)
Theorem missing_upload (env : Env) (outputDir : string) (w : World) :
  upload_handler env outputDir None w =
    (inr tt,
     mkWorld (clock w) (disk w)
       (effects w ++ [Respond 400 (ErrorBody "No file uploaded" None)])
       (console w)).
Proof. reflexivity. Qed.

(** ** Running the monad *)

Lemma bind_run {A B} (m : M A) (f : A → M B) (w : World) :
  (m ≫= f) w =
    match fst (m w) with
    | inr x => f x (snd (m w))
    | inl error => (inl error, snd (m w))
    end.
Proof. unfold mbind, M_bind. by destruct (m w) as [[e|x] w']. Qed.

(** One step of a run: expose the binds and compute. *)
Ltac run_binds := rewrite ?bind_run; simpl.

Lemma extends_same w w' :
  disk w' = disk w → effects w' = effects w → extends w w'.
Proof.
  intros Hd He. split; [by rewrite Hd|]. exists []. by rewrite app_nil_r.
Qed.

Lemma extends_refl w : extends w w.
Proof. by apply extends_same. Qed.

Lemma extends_trans w1 w2 w3 : extends w1 w2 → extends w2 w3 → extends w1 w3.
Proof.
  intros [Hd1 (es1 & He1 & Hr1 & Hu1)] [Hd2 (es2 & He2 & Hr2 & Hu2)].
  split; [set_solver|]. exists (es1 ++ es2).
  rewrite He2, He1, <- app_assoc. unfold responses, unlinks in *.
  by rewrite !omap_app, Hr1, Hr2, Hu1, Hu2.
Qed.

Lemma quiet_mret {A} (x : A) : quiet (mret x).
Proof. intros w. apply extends_refl. Qed.

Lemma quiet_throw {A} (error : Thrown) : quiet (@throw A error).
Proof. intros w. apply extends_refl. Qed.

Lemma quiet_bind {A B} (m : M A) (f : A → M B) :
  quiet m → (∀ x, quiet (f x)) → quiet (m ≫= f).
Proof.
  intros Hm Hf w. rewrite bind_run. specialize (Hm w).
  destruct (fst (m w)) as [e|x]; simpl; [done|].
  eapply extends_trans; [exact Hm | apply Hf].
Qed.

Lemma quiet_log line : quiet (log line).
Proof. intros w. by apply extends_same. Qed.

Lemma quiet_create p : quiet (create p).
Proof.
  intros w. split; simpl; [set_solver|]. exists []. by rewrite app_nil_r.
Qed.

Lemma quiet_existsSync p : quiet (existsSync p).
Proof. intros w. apply extends_refl. Qed.

Lemma quiet_Date_now env : quiet (Date_now env).
Proof. intros w. by apply extends_same. Qed.

Lemma quiet_perform e :
  responses [e] = [] → unlinks [e] = [] → quiet (perform e).
Proof. intros Hr Hu w. split; simpl; [done|]. by exists [e]. Qed.

Lemma quiet_when b m : quiet m → quiet (when b m).
Proof. destruct b; [done|]. intros _. apply quiet_mret. Qed.

Create HintDb quiet.
#[local] Hint Resolve quiet_mret quiet_throw quiet_log quiet_create
  quiet_existsSync quiet_Date_now : quiet.

Ltac quiet_step :=
  first
    [ solve [auto with quiet]
    | apply quiet_perform; reflexivity
    | apply quiet_when
    | apply quiet_bind; [|intros ?] ].

(** ** The probe *)

Lemma getVideoResolution_run env filePath w :
  getVideoResolution env filePath w =
    (probe_outcome env filePath,
     mkWorld (clock w) (disk w) (effects w ++ [Probe filePath])
       (console w ++ probe_lines env filePath)).
Proof.
  unfold probe_outcome, probe_lines, getVideoResolution.
  run_binds.
  destruct (ffprobe env filePath) as [message|streams]; simpl.
  - by rewrite app_nil_r.
  - run_binds.
    by destruct (List.find is_video streams ≫= truthy_height).
Qed.

Lemma quiet_getVideoResolution env filePath :
  quiet (getVideoResolution env filePath).
Proof.
  intros w. rewrite getVideoResolution_run. split; simpl; [done|].
  by exists [Probe filePath].
Qed.

(** The probe returns the height of the first video stream, when that
    stream has a height other than zero. *)
Lemma probe_first_video env filePath streams s h :
  ffprobe env filePath = inr streams →
  List.find is_video streams = Some s →
  height s = Some h → h ≠ 0 →
  probe_outcome env filePath = inr h.
Proof.
  intros Hp Hs Hh Hz. unfold probe_outcome, getVideoResolution.
  run_binds. rewrite Hp, ?bind_run. simpl.
  rewrite Hs. simpl. unfold truthy_height. rewrite Hh.
  by destruct (Z.eqb_spec h 0).
Qed.

(** It fails with the error of the inspection call when that call fails. *)
Lemma probe_inspection_error env filePath message :
  ffprobe env filePath = inl message →
  probe_outcome env filePath = inl (ErrorObject message).
Proof.
  intros Hp. unfold probe_outcome, getVideoResolution.
  run_binds. by rewrite Hp.
Qed.

(** It fails with a bare string when there is no video stream, or when the
    first one has no height (or the height zero). *)
Lemma probe_no_resolution env filePath streams :
  ffprobe env filePath = inr streams →
  List.find is_video streams ≫= truthy_height = None →
  probe_outcome env filePath =
    inl (StringValue "Could not determine video resolution.").
Proof.
  intros Hp Hs. unfold probe_outcome, getVideoResolution.
  run_binds. rewrite Hp, ?bind_run. simpl. by rewrite Hs.
Qed.

(** ** The parallel encode *)

Lemma insert_by_instant_perm env job sorted :
  insert_by_instant env job sorted ≡ₚ job :: sorted.
Proof.
  induction sorted as [|other rest IH]; simpl; [done|].
  destruct (_ <? _)%nat; [|done].
  rewrite IH. apply Permutation_swap.
Qed.

Lemma completion_order_perm env jobs : completion_order env jobs ≡ₚ jobs.
Proof.
  induction jobs as [|job jobs IH]; simpl; [done|].
  by rewrite insert_by_instant_perm, IH.
Qed.

Lemma launched_length env inputFile outputFolder ladder n :
  length (launched env inputFile outputFolder ladder n) = length ladder.
Proof.
  revert n. induction ladder as [|r ladder IH]; intros n; simpl; [done|].
  by rewrite IH.
Qed.

Lemma launched_spec env inputFile outputFolder ladder n :
  map spec (launched env inputFile outputFolder ladder n) = ladder.
Proof.
  revert n. induction ladder as [|r ladder IH]; intros n; simpl; [done|].
  by rewrite IH.
Qed.

Lemma mapM_launch_run env inputFile outputFolder ladder w :
  mapM (launch env inputFile outputFolder) ladder w =
    (inr (launched env inputFile outputFolder ladder (clock w)),
     mkWorld (clock w + length ladder) (disk w)
       (effects w
        ++ map Encode (launched env inputFile outputFolder ladder (clock w)))
       (console w)).
Proof.
  revert w. induction ladder as [|r ladder IH]; intros w; simpl.
  - rewrite Nat.add_0_r, app_nil_r. by destruct w.
  - rewrite bind_run. unfold launch at 1. run_binds.
    rewrite bind_run, IH. simpl.
    by rewrite Nat.add_succ_r, <- app_assoc.
Qed.

Lemma encode_all_run env inputFile outputFolder ladder w :
  encode_all env inputFile outputFolder ladder w =
    settle env
      (completion_order env
         (launched env inputFile outputFolder ladder (clock w))) []
      (mkWorld (clock w + length ladder) (disk w)
         (effects w
          ++ map Encode (launched env inputFile outputFolder ladder (clock w)))
         (console w)).
Proof. unfold encode_all. by rewrite bind_run, mapM_launch_run. Qed.

Lemma transcodeVideo_run env inputFile outputFolder inputHeight w :
  transcodeVideo env inputFile outputFolder inputHeight w =
    encode_all env inputFile outputFolder (availableResolutions inputHeight)
      (mkWorld (clock w)
         (if bool_decide (outputFolder ∈ disk w) then disk w
          else {[outputFolder]} ∪ disk w)
         (effects w
          ++ if bool_decide (outputFolder ∈ disk w) then []
             else [Mkdir outputFolder])
         (console w ++ [LogAvailable (availableResolutions inputHeight)])).
Proof.
  unfold transcodeVideo. run_binds.
  destruct (bool_decide (outputFolder ∈ disk w)); simpl.
  - run_binds. by rewrite app_nil_r.
  - unfold mkdirSync. run_binds. by rewrite ?bind_run.
Qed.

Lemma settle_world env pending acc w :
  let w' := snd (settle env pending acc w) in
  clock w' = clock w ∧ effects w' = effects w ∧ disk w ⊆ disk w'.
Proof.
  revert acc w. induction pending as [|job rest IH]; intros acc w; simpl.
  - done.
  - destruct (snd (ffmpeg env job)) as [message|]; run_binds.
    + done.
    + run_binds.
      destruct (IH (acc ++ [Transcoded.mk (outputFileName job) (outputFilePath job)])
                  (mkWorld (clock w) ({[outputFilePath job]} ∪ disk w)
                     (effects w)
                     (console w ++ [LogTranscoded (name (spec job))])))
        as (Hc & He & Hd).
      simpl in *. split; [done|]. split; [done|].
      transitivity ({[outputFilePath job]} ∪ disk w); [apply union_subseteq_r | done].
Qed.

(** When every command ends, the join returns one entry per command, in
    completion order. *)
Lemma settle_ok env pending acc w :
  Forall (ended env) pending →
  fst (settle env pending acc w) = inr (acc ++ map transcoded pending).
Proof.
  revert acc w. induction pending as [|job rest IH]; intros acc w Hall; simpl.
  - by rewrite app_nil_r.
  - apply Forall_cons in Hall as [Hjob Hrest]. unfold ended in Hjob.
    rewrite Hjob, ?bind_run. simpl. run_binds.
    rewrite IH; [|done]. by rewrite <- app_assoc.
Qed.

(** The first command that fails, in completion order, rejects the join
    with its error, whatever had been pushed before. *)
Lemma settle_fail env before failed after message acc w :
  Forall (ended env) before →
  snd (ffmpeg env failed) = Some message →
  fst (settle env (before ++ failed :: after) acc w)
  = inl (ErrorObject message).
Proof.
  revert acc w. induction before as [|job rest IH]; intros acc w Hall Hfail; simpl.
  - by rewrite Hfail, ?bind_run.
  - apply Forall_cons in Hall as [Hjob Hrest]. unfold ended in Hjob.
    rewrite Hjob, ?bind_run. simpl. run_binds.
    by apply IH.
Qed.

Lemma first_failure env jobs job message :
  job ∈ jobs → snd (ffmpeg env job) = Some message →
  ∃ before failed message' after,
    jobs = before ++ failed :: after
    ∧ Forall (ended env) before
    ∧ snd (ffmpeg env failed) = Some message'.
Proof.
  induction jobs as [|j jobs IH]; intros Hin Hfail.
  - by apply elem_of_nil in Hin.
  - destruct (snd (ffmpeg env j)) as [m|] eqn:Hj.
    + by exists [], j, m, jobs.
    + apply elem_of_cons in Hin as [->|Hin]; [congruence|].
      destruct (IH Hin Hfail) as (before & failed & m & after & -> & Hb & Hf).
      exists (j :: before), failed, m, after. split; [done|].
      split; [by constructor | done].
Qed.

Lemma quiet_mapM {A B} (f : A → M B) (l : list A) :
  (∀ x, quiet (f x)) → quiet (mapM f l).
Proof.
  intros Hf. induction l as [|x l IH]; simpl; [quiet_step|].
  quiet_step; [apply Hf|]. quiet_step; [apply IH | quiet_step].
Qed.

Lemma quiet_launch env inputFile outputFolder r :
  quiet (launch env inputFile outputFolder r).
Proof. unfold launch. repeat quiet_step. Qed.

Lemma quiet_settle env pending acc : quiet (settle env pending acc).
Proof.
  revert acc. induction pending as [|job rest IH]; intros acc; simpl.
  - quiet_step.
  - destruct (snd (ffmpeg env job)); repeat quiet_step.
Qed.

Lemma quiet_transcodeVideo env inputFile outputFolder inputHeight :
  quiet (transcodeVideo env inputFile outputFolder inputHeight).
Proof.
  unfold transcodeVideo, encode_all, mkdirSync.
  repeat quiet_step.
  - apply quiet_mapM, quiet_launch.
  - apply quiet_settle.
Qed.

Lemma settle_fst_indep env pending acc w w' :
  fst (settle env pending acc w) = fst (settle env pending acc w').
Proof.
  revert acc w w'. induction pending as [|job rest IH]; intros acc w w'; simpl.
  - done.
  - destruct (snd (ffmpeg env job)) as [message|]; run_binds.
    + done.
    + run_binds. apply IH.
Qed.

Lemma transcodeVideo_fst env inputFile outputFolder inputHeight w :
  fst (transcodeVideo env inputFile outputFolder inputHeight w) =
    join_outcome env
      (launched env inputFile outputFolder
         (availableResolutions inputHeight) (clock w)).
Proof.
  rewrite transcodeVideo_run, encode_all_run. simpl. apply settle_fst_indep.
Qed.

Lemma transcodeVideo_world env inputFile outputFolder inputHeight w :
  let w' := snd (transcodeVideo env inputFile outputFolder inputHeight w) in
  effects w' =
    effects w
    ++ (if bool_decide (outputFolder ∈ disk w) then [] else [Mkdir outputFolder])
    ++ map Encode
         (launched env inputFile outputFolder
            (availableResolutions inputHeight) (clock w)).
Proof.
  simpl. rewrite transcodeVideo_run, encode_all_run.
  match goal with
  | |- effects (snd (settle ?e ?p ?a ?w0)) = _ =>
      destruct (settle_world e p a w0) as (_ & -> & _)
  end.
  simpl. by rewrite <- app_assoc.
Qed.

Lemma join_outcome_ok env jobs :
  Forall (ended env) jobs →
  join_outcome env jobs = inr (map transcoded (completion_order env jobs)).
Proof.
  intros Hall. unfold join_outcome. apply settle_ok.
  by rewrite completion_order_perm.
Qed.

Lemma join_outcome_fail env jobs job message :
  job ∈ jobs → snd (ffmpeg env job) = Some message →
  ∃ before failed message' after,
    completion_order env jobs = before ++ failed :: after
    ∧ Forall (ended env) before
    ∧ snd (ffmpeg env failed) = Some message'
    ∧ failed ∈ jobs
    ∧ join_outcome env jobs = inl (ErrorObject message').
Proof.
  intros Hin Hfail.
  assert (Hin' : job ∈ completion_order env jobs)
    by by rewrite completion_order_perm.
  destruct (first_failure env _ job message Hin' Hfail)
    as (before & failed & m & after & Heq & Hb & Hf).
  exists before, failed, m, after. split; [done|]. split; [done|].
  split; [done|]. split.
  - rewrite <- (completion_order_perm env jobs), Heq.
    apply elem_of_app. right. apply list_elem_of_here.
  - unfold join_outcome. rewrite Heq. by apply settle_fail.
Qed.

(** ** The publish loop *)

Lemma publish_world env transcodedFiles ipfsCIDs w :
  let w' := snd (publish env transcodedFiles ipfsCIDs w) in
  clock w' = clock w ∧ disk w' = disk w
  ∧ effects w' =
      effects w
      ++ map Store (map Transcoded.path (attempted env transcodedFiles)).
Proof.
  revert ipfsCIDs w.
  induction transcodedFiles as [|file rest IH]; intros ipfsCIDs w; simpl.
  - by rewrite app_nil_r.
  - run_binds. unfold uploadToPinata. run_binds.
    destruct (pinata env (Transcoded.path file)) as [message|ipfsHash];
      run_binds.
    + done.
    + match goal with
      | |- context [publish env rest ?m ?w0] =>
          destruct (IH m w0) as (-> & -> & ->)
      end.
      simpl. by rewrite <- app_assoc.
Qed.

Lemma publish_fst_indep env transcodedFiles ipfsCIDs w w' :
  fst (publish env transcodedFiles ipfsCIDs w)
  = fst (publish env transcodedFiles ipfsCIDs w').
Proof.
  revert ipfsCIDs w w'.
  induction transcodedFiles as [|file rest IH]; intros ipfsCIDs w w'; simpl.
  - done.
  - run_binds. unfold uploadToPinata. run_binds.
    destruct (pinata env (Transcoded.path file)) as [message|ipfsHash];
      run_binds; [done | apply IH].
Qed.

(** When the store accepts every file, the loop returns the mapping of all
    of them and has submitted them one after the other, in input order. *)
Lemma publish_ok env transcodedFiles ipfsCIDs w :
  Forall (stored env) transcodedFiles →
  fst (publish env transcodedFiles ipfsCIDs w)
  = inr (published env transcodedFiles ipfsCIDs)
  ∧ attempted env transcodedFiles = transcodedFiles.
Proof.
  revert ipfsCIDs w.
  induction transcodedFiles as [|file rest IH]; intros ipfsCIDs w Hall; simpl.
  - done.
  - apply Forall_cons in Hall as [Hfile Hrest]. unfold stored in Hfile.
    run_binds. unfold uploadToPinata. run_binds.
    destruct (pinata env (Transcoded.path file)) as [message|ipfsHash];
      [by destruct Hfile|].
    run_binds.
    match goal with
    | |- context [publish env rest ?m ?w0] =>
        destruct (IH m w0 Hrest) as [-> ->]
    end.
    done.
Qed.

(** When the store refuses a file, the loop throws the store's error; it
    has submitted the files before it and that file, and no other. *)
Lemma publish_fail env before file after message ipfsCIDs w :
  Forall (stored env) before →
  pinata env (Transcoded.path file) = inl message →
  fst (publish env (before ++ file :: after) ipfsCIDs w)
  = inl (ErrorObject message)
  ∧ attempted env (before ++ file :: after) = before ++ [file].
Proof.
  revert ipfsCIDs w.
  induction before as [|f rest IH]; intros ipfsCIDs w Hall Hfail; simpl.
  - run_binds. unfold uploadToPinata. run_binds.
    rewrite Hfail. by rewrite ?bind_run.
  - apply Forall_cons in Hall as [Hf Hrest]. unfold stored in Hf.
    run_binds. unfold uploadToPinata. run_binds.
    destruct (pinata env (Transcoded.path f)) as [m|ipfsHash];
      [by destruct Hf|].
    run_binds.
    match goal with
    | |- context [publish env (rest ++ file :: after) ?m ?w0] =>
        destruct (IH m w0 Hrest Hfail) as [-> ->]
    end.
    done.
Qed.

(** ** The pipeline and the handler *)

Lemma quiet_uploadToPinata env filePath : quiet (uploadToPinata env filePath).
Proof.
  unfold uploadToPinata. quiet_step; [quiet_step|].
  destruct (pinata env filePath); repeat quiet_step.
Qed.

Lemma quiet_publish env transcodedFiles ipfsCIDs :
  quiet (publish env transcodedFiles ipfsCIDs).
Proof.
  revert ipfsCIDs.
  induction transcodedFiles as [|file rest IH]; intros ipfsCIDs; simpl.
  - quiet_step.
  - quiet_step; [quiet_step|]. quiet_step; [apply quiet_uploadToPinata|].
    apply IH.
Qed.

#[local] Hint Resolve quiet_getVideoResolution quiet_transcodeVideo
  quiet_publish : quiet.

(** The pipeline neither answers nor unlinks, and removes nothing from
    the disk. *)
Lemma quiet_pipeline env inputFile outputFolder :
  quiet (pipeline env inputFile outputFolder).
Proof. unfold pipeline. repeat quiet_step. Qed.

Lemma pipeline_run env inputFile outputFolder w :
  fst (pipeline env inputFile outputFolder w)
  = pipeline_outcome env inputFile outputFolder (clock w)
  ∧ effects (snd (pipeline env inputFile outputFolder w))
    = effects w ++ pipeline_effects env inputFile outputFolder w.
Proof.
  unfold pipeline, pipeline_outcome, pipeline_effects.
  rewrite bind_run. simpl. rewrite bind_run, getVideoResolution_run. simpl.
  destruct (probe_outcome env inputFile) as [error|inputHeight]; simpl.
  { done. }
  rewrite bind_run. simpl. rewrite bind_run.
  match goal with
  | |- context [transcodeVideo env inputFile outputFolder inputHeight ?w0] =>
      pose proof (transcodeVideo_fst env inputFile outputFolder inputHeight w0)
        as Hfst;
      pose proof (transcodeVideo_world env inputFile outputFolder inputHeight w0)
        as Heff;
      destruct (transcodeVideo env inputFile outputFolder inputHeight w0)
        as [joined w1]
  end.
  simpl in *. rewrite Hfst. clear Hfst.
  destruct (join_outcome env _) as [error|transcodedFiles]; simpl.
  { by rewrite Heff, app_nil_r, <- app_assoc. }
  destruct (publish_world env transcodedFiles ∅ w1) as (_ & _ & He).
  rewrite He, Heff.
  split; [apply publish_fst_indep|].
  by rewrite <- !app_assoc.
Qed.

Lemma cleanup_run env inputFile w :
  cleanup env inputFile w = (inr tt, cleaned env inputFile w).
Proof.
  unfold cleanup, cleaned, try_catch. rewrite bind_run. simpl.
  destruct (bool_decide (inputFile ∈ disk w)); simpl; [|done].
  unfold unlinkSync. run_binds. run_binds.
  destruct (unlink env inputFile) as [message|]; simpl; [done|].
  by rewrite ?bind_run.
Qed.

Lemma upload_handler_run env outputDir inputFile w :
  upload_handler env outputDir (Some inputFile) w =
    let run := pipeline env inputFile (request_folder env outputDir w) (ticked w) in
    (inr tt, cleaned env inputFile (answered (fst run) (snd run))).
Proof.
  unfold upload_handler, try_finally, try_catch, mbind, M_bind, Date_now.
  fold (ticked w). fold (request_folder env outputDir w). simpl.
  destruct (pipeline env inputFile (request_folder env outputDir w) (ticked w))
    as [[error|ipfsCIDs] w1]; simpl; by rewrite cleanup_run.
Qed.

Lemma responses_app es1 es2 : responses (es1 ++ es2) = responses es1 ++ responses es2.
Proof. apply omap_app. Qed.

Lemma stores_app es1 es2 : stores (es1 ++ es2) = stores es1 ++ stores es2.
Proof. apply omap_app. Qed.

Lemma encodes_app es1 es2 : encodes (es1 ++ es2) = encodes es1 ++ encodes es2.
Proof. apply omap_app. Qed.

Lemma unlinks_app es1 es2 : unlinks (es1 ++ es2) = unlinks es1 ++ unlinks es2.
Proof. apply omap_app. Qed.

Lemma read_encodes (jobs : list EncodeJob) :
  responses (map Encode jobs) = [] ∧ stores (map Encode jobs) = []
  ∧ unlinks (map Encode jobs) = [] ∧ encodes (map Encode jobs) = jobs.
Proof. induction jobs as [|j jobs (?&?&?&IH)]; simpl; [done|]. by rewrite IH. Qed.

Lemma read_stores (paths : list string) :
  responses (map Store paths) = [] ∧ stores (map Store paths) = paths
  ∧ unlinks (map Store paths) = [] ∧ encodes (map Store paths) = [].
Proof. induction paths as [|p paths (?&IH&?&?)]; simpl; [done|]. by rewrite IH. Qed.

Lemma pipeline_effects_silent env inputFile outputFolder w :
  responses (pipeline_effects env inputFile outputFolder w) = []
  ∧ unlinks (pipeline_effects env inputFile outputFolder w) = [].
Proof.
  unfold pipeline_effects.
  destruct (probe_outcome env inputFile) as [error|inputHeight]; [done|].
  change (Probe inputFile :: ?l) with ([Probe inputFile] ++ l).
  rewrite !responses_app, !unlinks_app.
  destruct (read_encodes (launched env inputFile outputFolder
                            (availableResolutions inputHeight) (clock w)))
    as (-> & _ & -> & _).
  destruct (join_outcome env _) as [error|transcodedFiles].
  - by destruct (bool_decide _).
  - destruct (read_stores (map Transcoded.path (attempted env transcodedFiles)))
      as (-> & _ & -> & _).
    by destruct (bool_decide _).
Qed.

(** The handler answers once, with the response that the outcome of the
    pipeline determines. *)
Lemma upload_handler_responses env outputDir inputFile w :
  responses (effects (snd (upload_handler env outputDir (Some inputFile) w)))
  = responses (effects w)
    ++ [response_of (pipeline_outcome env inputFile
                       (request_folder env outputDir w) (S (clock w)))].
Proof.
  rewrite upload_handler_run. cbn [snd].
  destruct (pipeline_run env inputFile (request_folder env outputDir w) (ticked w))
    as (Hfst & Heff).
  destruct (pipeline_effects_silent env inputFile
              (request_folder env outputDir w) (ticked w)) as [Hr _].
  set (run := pipeline env inputFile (request_folder env outputDir w) (ticked w)) in *.
  assert (Hans : responses (effects (answered (fst run) (snd run)))
          = responses (effects w)
            ++ [response_of (pipeline_outcome env inputFile
                       (request_folder env outputDir w) (S (clock w)))]).
  { unfold answered. cbn [effects]. rewrite Heff, Hfst, !responses_app, Hr.
    simpl. rewrite app_nil_r. by destruct (response_of _). }
  unfold cleaned. destruct (bool_decide _); [|done].
  destruct (unlink env inputFile); cbn [effects];
    rewrite responses_app, Hans; simpl; by rewrite app_nil_r.
Qed.

(** The effects of the handler other than the response and the unlink are
    those of the pipeline. *)
Lemma upload_handler_effects env outputDir inputFile w :
  ∃ tail,
    effects (snd (upload_handler env outputDir (Some inputFile) w))
    = effects w
      ++ pipeline_effects env inputFile (request_folder env outputDir w) (ticked w)
      ++ tail
    ∧ stores tail = [] ∧ encodes tail = [].
Proof.
  rewrite upload_handler_run. simpl.
  destruct (pipeline_run env inputFile (request_folder env outputDir w) (ticked w))
    as (_ & Heff).
  unfold cleaned, answered. simpl.
  destruct (bool_decide _); [destruct (unlink env inputFile)|]; simpl;
    rewrite Heff; simpl; rewrite <- ?app_assoc; eexists; (split; [reflexivity|done]).
Qed.

(** ** Failure of an encode job *)

(** C2.  For every ladder and every assignment of outcomes to the jobs, if
    some job fails then the join fails with the error of a job that failed
    (the first one to fail in completion order), and the coordinator hands
    its caller that error instead of a list: no entry pushed by a job that
    had already ended is returned. *)
Theorem coordinator_failure (env : Env) (inputFile outputFolder : string)
    (ladder : list Resolution) (w : World) (job : EncodeJob)
    (message : string) :
  let jobs := launched env inputFile outputFolder ladder (clock w) in
  job ∈ jobs →
  snd (ffmpeg env job) = Some message →
  ∃ before failed message' after,
    completion_order env jobs = before ++ failed :: after
    ∧ Forall (ended env) before
    ∧ failed ∈ jobs
    ∧ snd (ffmpeg env failed) = Some message'
    ∧ fst (encode_all env inputFile outputFolder ladder w)
      = inl (ErrorObject message')
    ∧ ∀ inputHeight,
        ladder = availableResolutions inputHeight →
        fst (transcodeVideo env inputFile outputFolder inputHeight w)
        = inl (ErrorObject message').
Proof.
  intros jobs Hin Hfail.
  destruct (join_outcome_fail env jobs job message Hin Hfail)
    as (before & failed & m & after & Horder & Hbefore & Hf & Hfin & Hjoin).
  exists before, failed, m, after.
  repeat (split; [done|]). split.
  - rewrite encode_all_run. fold jobs. rewrite <- Hjoin.
    apply settle_fst_indep.
  - intros inputHeight ->. by rewrite transcodeVideo_fst.
Qed.

Lemma coordinator_failure_witness :
  let env := Sample.encode_fails in
  let folder := "/srv/app/output/1700000000000" in
  let w := ticked Sample.start in
  let jobs :=
    launched env Sample.upload folder (availableResolutions 1080) (clock w) in
  let job :=
    encode_job Sample.upload folder
      (mkResolution "720p" "1280x720" "2500k") 1700000000002 in
  job ∈ jobs
  ∧ snd (ffmpeg env job) = Some "ffmpeg exited with code 1"
  ∧ ∃ before failed message' after,
      completion_order env jobs = before ++ failed :: after
      ∧ Forall (ended env) before
      ∧ failed ∈ jobs
      ∧ snd (ffmpeg env failed) = Some message'
      ∧ fst (encode_all env Sample.upload folder (availableResolutions 1080) w)
        = inl (ErrorObject message')
      ∧ ∀ inputHeight,
          availableResolutions 1080 = availableResolutions inputHeight →
          fst (transcodeVideo env Sample.upload folder inputHeight w)
          = inl (ErrorObject message').
Proof.
  intros env folder w jobs job.
  assert (Hin : job ∈ jobs).
  { vm_compute. apply list_elem_of_further, list_elem_of_here. }
  split; [exact Hin|]. split; [reflexivity|].
  exact (coordinator_failure env Sample.upload folder
           (availableResolutions 1080) w job _ Hin eq_refl).
Defined.

(** In the sample run the 480p and 360p jobs have ended when the 720p job
    fails; the caller gets the error all the same. *)
Example sample_encode_failure :
  fst (transcodeVideo Sample.encode_fails Sample.upload
         "/srv/app/output/1700000000000" 1080 (ticked Sample.start))
  = inl (ErrorObject "ffmpeg exited with code 1")
  ∧ map (λ job, name (spec job))
      (completion_order Sample.encode_fails
         (launched Sample.encode_fails Sample.upload
            "/srv/app/output/1700000000000" (availableResolutions 1080) 1))
    = ["360p"; "480p"; "720p"; "1080p"].
Proof. split; vm_compute; reflexivity. Qed.

(** When a job of a request fails, the handler answers 500 with the message
    of a failed job, and makes no store call. *)
Lemma encode_failure_response env outputDir inputFile inputHeight w job message :
  probe_outcome env inputFile = inr inputHeight →
  job ∈ request_jobs env outputDir inputFile inputHeight w →
  snd (ffmpeg env job) = Some message →
  let w' := snd (upload_handler env outputDir (Some inputFile) w) in
  ∃ failed message',
    failed ∈ request_jobs env outputDir inputFile inputHeight w
    ∧ snd (ffmpeg env failed) = Some message'
    ∧ responses (effects w')
      = responses (effects w)
        ++ [(500, ErrorBody "Processing failed" (Some message'))]
    ∧ stores (effects w') = stores (effects w).
Proof.
  intros Hprobe Hin Hfail w'. subst w'.
  destruct (join_outcome_fail env _ job message Hin Hfail)
    as (_ & failed & m & _ & _ & _ & Hf & Hfin & Hjoin).
  exists failed, m. split; [done|]. split; [done|]. split.
  - rewrite upload_handler_responses. unfold pipeline_outcome.
    rewrite Hprobe. unfold request_jobs in Hjoin. by rewrite Hjoin.
  - destruct (upload_handler_effects env outputDir inputFile w)
      as (tail & -> & Htail & _).
    unfold pipeline_effects. rewrite Hprobe. cbn [clock ticked].
    unfold request_jobs in Hjoin. rewrite Hjoin.
    change (Probe inputFile :: ?l) with ([Probe inputFile] ++ l).
    rewrite !stores_app, Htail, !app_nil_r.
    destruct (read_encodes (launched env inputFile (request_folder env outputDir w)
                              (availableResolutions inputHeight) (S (clock w))))
      as (_ & -> & _).
    destruct (bool_decide _); simpl; by rewrite !app_nil_r.
Qed.

(** ** The publish loop and its failure *)

Lemma attempted_prefix env transcodedFiles :
  attempted env transcodedFiles `prefix_of` transcodedFiles.
Proof.
  induction transcodedFiles as [|file rest IH]; simpl; [done|].
  destruct (pinata env (Transcoded.path file)).
  - by exists rest.
  - by apply prefix_cons.
Qed.

Lemma publish_stores env transcodedFiles ipfsCIDs w :
  stores (effects (snd (publish env transcodedFiles ipfsCIDs w)))
  = stores (effects w) ++ map Transcoded.path (attempted env transcodedFiles).
Proof.
  destruct (publish_world env transcodedFiles ipfsCIDs w) as (_ & _ & ->).
  rewrite stores_app.
  by destruct (read_stores (map Transcoded.path (attempted env transcodedFiles)))
    as (_ & -> & _).
Qed.

Lemma upload_handler_stores env outputDir inputFile inputHeight w transcodedFiles :
  probe_outcome env inputFile = inr inputHeight →
  join_outcome env (request_jobs env outputDir inputFile inputHeight w)
  = inr transcodedFiles →
  stores (effects (snd (upload_handler env outputDir (Some inputFile) w)))
  = stores (effects w) ++ map Transcoded.path (attempted env transcodedFiles).
Proof.
  intros Hprobe Hjoin.
  destruct (upload_handler_effects env outputDir inputFile w)
    as (tail & -> & Htail & _).
  unfold pipeline_effects. rewrite Hprobe. cbn [clock ticked].
  unfold request_jobs in Hjoin. rewrite Hjoin.
  change (Probe inputFile :: ?l) with ([Probe inputFile] ++ l).
  rewrite !stores_app, Htail, app_nil_r.
  destruct (read_encodes (launched env inputFile (request_folder env outputDir w)
                            (availableResolutions inputHeight) (S (clock w))))
    as (_ & -> & _).
  destruct (read_stores (map Transcoded.path (attempted env transcodedFiles)))
    as (_ & -> & _).
  by destruct (bool_decide _).
Qed.

(** C3.  The loop submits the files one at a time in input order: what it
    has submitted is always a prefix of its input.  If the store accepts
    the files [before] and refuses [file], the loop throws the store's
    error after exactly those calls; the handler then answers 500 with
    that error's message and no mapping, although the files of [before]
    have been stored. *)
Theorem publisher_all_or_nothing (env : Env)
    (before : list Transcoded.t) (file : Transcoded.t)
    (after : list Transcoded.t) (message : string) :
  let transcodedFiles := before ++ file :: after in
  Forall (stored env) before →
  pinata env (Transcoded.path file) = inl message →
  (∀ files ipfsCIDs w,
     stores (effects (snd (publish env files ipfsCIDs w)))
     = stores (effects w) ++ map Transcoded.path (attempted env files)
     ∧ attempted env files `prefix_of` files)
  ∧ (∀ ipfsCIDs w,
       fst (publish env transcodedFiles ipfsCIDs w) = inl (ErrorObject message)
       ∧ stores (effects (snd (publish env transcodedFiles ipfsCIDs w)))
         = stores (effects w)
           ++ map Transcoded.path before ++ [Transcoded.path file])
  ∧ (∀ outputDir inputFile inputHeight w,
       probe_outcome env inputFile = inr inputHeight →
       join_outcome env (request_jobs env outputDir inputFile inputHeight w)
       = inr transcodedFiles →
       let w' := snd (upload_handler env outputDir (Some inputFile) w) in
       stores (effects w')
       = stores (effects w)
         ++ map Transcoded.path before ++ [Transcoded.path file]
       ∧ responses (effects w')
         = responses (effects w)
           ++ [(500, ErrorBody "Processing failed" (Some message))]).
Proof.
  intros transcodedFiles Hbefore Hfile. subst transcodedFiles.
  assert (Hatt : map Transcoded.path (attempted env (before ++ file :: after))
                 = map Transcoded.path before ++ [Transcoded.path file]).
  { destruct (publish_fail env before file after message ∅ (mkWorld 0 ∅ [] [])
                Hbefore Hfile) as [_ ->].
    by rewrite map_app. }
  split; [|split].
  - intros files ipfsCIDs w. split; [apply publish_stores | apply attempted_prefix].
  - intros ipfsCIDs w.
    destruct (publish_fail env before file after message ipfsCIDs w Hbefore Hfile)
      as [Hfst _].
    split; [done|]. by rewrite publish_stores, Hatt.
  - intros outputDir inputFile inputHeight w Hprobe Hjoin w'. subst w'. split.
    + by rewrite (upload_handler_stores _ _ _ _ _ _ Hprobe Hjoin), Hatt.
    + rewrite upload_handler_responses. unfold pipeline_outcome.
      rewrite Hprobe. unfold request_jobs in Hjoin. rewrite Hjoin.
      unfold publish_outcome.
      destruct (publish_fail env before file after message ∅ (mkWorld 0 ∅ [] [])
                  Hbefore Hfile) as [-> _].
      done.
Qed.

Lemma publisher_all_or_nothing_witness :
  let env := Sample.store_fails in
  let before := [Sample.file_360; Sample.file_480] in
  let file := Sample.file_720 in
  let after := [Sample.file_1080] in
  let w' := snd (upload_handler env Sample.outputDir (Some Sample.upload)
                   Sample.start) in
  Forall (stored env) before
  ∧ pinata env (Transcoded.path file)
    = inl "Request failed with status code 401"
  ∧ stores (effects w')
    = map Transcoded.path before ++ [Transcoded.path file]
  ∧ responses (effects w')
    = [(500, ErrorBody "Processing failed"
               (Some "Request failed with status code 401"))].
Proof.
  intros env before file after w'.
  assert (Hbefore : Forall (stored env) before).
  { repeat constructor; by eexists. }
  split; [exact Hbefore|]. split; [reflexivity|].
  destruct (publisher_all_or_nothing env before file after
              "Request failed with status code 401" Hbefore eq_refl)
    as (_ & _ & Hhandler).
  exact (Hhandler Sample.outputDir Sample.upload 1080 Sample.start
           eq_refl eq_refl).
Defined.

(** ** A source smaller than every rendition *)

Lemma availableResolutions_small inputHeight :
  inputHeight < 360 → availableResolutions inputHeight = [].
Proof.
  intros Hsmall.
  unfold availableResolutions, select_ladder, resolutions. cbn [List.filter].
  rewrite !keep_resolution_redundant. unfold keep_resolution_le.
  change (frame_height (mkResolution "1080p" "1920x1080" "5000k")) with (Some 1080).
  change (frame_height (mkResolution "720p" "1280x720" "2500k")) with (Some 720).
  change (frame_height (mkResolution "480p" "854x480" "1000k")) with (Some 480).
  change (frame_height (mkResolution "360p" "640x360" "600k")) with (Some 360).
  cbn [Js.le].
  destruct (Z.leb_spec 1080 inputHeight); [lia|].
  destruct (Z.leb_spec 720 inputHeight); [lia|].
  destruct (Z.leb_spec 480 inputHeight); [lia|].
  destruct (Z.leb_spec 360 inputHeight); [lia|].
  done.
Qed.

(** C7.  When the probed height is below 360 the ladder is empty, the
    handler starts no encode job and makes no store call, and it answers
    200 with the message "Processing complete" and an empty [files]
    mapping. *)
Theorem empty_ladder_success (env : Env) (outputDir inputFile : string)
    (inputHeight : Z) (w : World) :
  probe_outcome env inputFile = inr inputHeight →
  inputHeight < 360 →
  let w' := snd (upload_handler env outputDir (Some inputFile) w) in
  availableResolutions inputHeight = []
  ∧ request_jobs env outputDir inputFile inputHeight w = []
  ∧ encodes (effects w') = encodes (effects w)
  ∧ stores (effects w') = stores (effects w)
  ∧ responses (effects w')
    = responses (effects w) ++ [(200, CompleteBody "Processing complete" ∅)].
Proof.
  intros Hprobe Hsmall w'. subst w'.
  pose proof (availableResolutions_small inputHeight Hsmall) as Hladder.
  assert (Hjobs : request_jobs env outputDir inputFile inputHeight w = []).
  { unfold request_jobs. by rewrite Hladder. }
  split; [done|]. split; [done|].
  destruct (upload_handler_effects env outputDir inputFile w)
    as (tail & Heff & Hstores & Hencodes).
  split; [|split].
  - rewrite Heff. unfold pipeline_effects. rewrite Hprobe, Hladder.
    change (Probe inputFile :: ?l) with ([Probe inputFile] ++ l).
    rewrite !encodes_app, Hencodes. cbn.
    destruct (bool_decide _); cbn; by rewrite app_nil_r.
  - rewrite Heff. unfold pipeline_effects. rewrite Hprobe, Hladder.
    change (Probe inputFile :: ?l) with ([Probe inputFile] ++ l).
    rewrite !stores_app, Hstores. cbn.
    destruct (bool_decide _); cbn; by rewrite app_nil_r.
  - rewrite upload_handler_responses. unfold pipeline_outcome.
    by rewrite Hprobe, Hladder.
Qed.

Lemma empty_ladder_success_witness :
  let env := Sample.healthy 300 in
  let w' := snd (upload_handler env Sample.outputDir (Some Sample.upload)
                   Sample.start) in
  probe_outcome env Sample.upload = inr 300
  ∧ 300 < 360
  ∧ availableResolutions 300 = []
  ∧ request_jobs env Sample.outputDir Sample.upload 300 Sample.start = []
  ∧ encodes (effects w') = []
  ∧ stores (effects w') = []
  ∧ responses (effects w') = [(200, CompleteBody "Processing complete" ∅)].
Proof.
  intros env w'.
  split; [reflexivity|]. split; [lia|].
  exact (empty_ladder_success env Sample.outputDir Sample.upload 300
           Sample.start eq_refl ltac:(lia)).
Defined.

(** ** Failure of the probe *)

(** C8.  When the inspection succeeds but shows no video stream, or a
    first video stream without a height, the probe rejects with the bare
    string "Could not determine video resolution."; the handler reads
    [error.message] of that string, which is undefined, so the 500 response
    carries the category "Processing failed" and no message. *)
Theorem probe_failure_drops_message (env : Env) (outputDir inputFile : string)
    (streams : list Stream) (w : World) :
  ffprobe env inputFile = inr streams →
  List.find is_video streams ≫= truthy_height = None →
  let w' := snd (upload_handler env outputDir (Some inputFile) w) in
  probe_outcome env inputFile
  = inl (StringValue "Could not determine video resolution.")
  ∧ responses (effects w')
    = responses (effects w) ++ [(500, ErrorBody "Processing failed" None)].
Proof.
  intros Hprobe Hnone w'. subst w'.
  pose proof (probe_no_resolution env inputFile streams Hprobe Hnone) as Hout.
  split; [done|].
  rewrite upload_handler_responses. unfold pipeline_outcome. by rewrite Hout.
Qed.

Lemma probe_failure_drops_message_witness :
  let env := Sample.audio_only in
  let w' := snd (upload_handler env Sample.outputDir (Some Sample.upload)
                   Sample.start) in
  ffprobe env Sample.upload = inr [mkStream (Some "audio") None]
  ∧ List.find is_video [mkStream (Some "audio") None] ≫= truthy_height = None
  ∧ probe_outcome env Sample.upload
    = inl (StringValue "Could not determine video resolution.")
  ∧ responses (effects w') = [(500, ErrorBody "Processing failed" None)].
Proof.
  intros env w'.
  split; [reflexivity|]. split; [reflexivity|].
  exact (probe_failure_drops_message env Sample.outputDir Sample.upload
           [mkStream (Some "audio") None] Sample.start eq_refl eq_refl).
Defined.

(** What does hold when the probe fails: the handler answers 500 once,
    with the message of the error when the error has one; it makes no
    directory, starts no encode job, stores nothing, and adds no file to
    the disk. *)
Lemma probe_failure_contained env outputDir inputFile error w :
  probe_outcome env inputFile = inl error →
  let w' := snd (upload_handler env outputDir (Some inputFile) w) in
  responses (effects w')
  = responses (effects w)
    ++ [(500, ErrorBody "Processing failed" (message_of error))]
  ∧ (∃ tail,
       effects w'
       = effects w
         ++ [Probe inputFile;
             Respond 500 (ErrorBody "Processing failed" (message_of error))]
         ++ tail
       ∧ (tail = [] ∨ tail = [Unlink inputFile]))
  ∧ disk w' ⊆ disk w.
Proof.
  intros Hprobe w'. subst w'. split; [|split].
  - rewrite upload_handler_responses. unfold pipeline_outcome. by rewrite Hprobe.
  - rewrite upload_handler_run. cbn [snd].
    destruct (pipeline_run env inputFile (request_folder env outputDir w) (ticked w))
      as (Hfst & Heff).
    unfold pipeline_outcome in Hfst. unfold pipeline_effects in Heff.
    rewrite Hprobe in Hfst, Heff.
    unfold cleaned, answered. cbn [disk effects].
    destruct (bool_decide _); [destruct (unlink env inputFile)|];
      cbn [effects]; rewrite Heff, Hfst; cbn [effects ticked response_of fst snd];
      rewrite <- ?app_assoc; eexists; (split; [reflexivity|]); auto.
  - rewrite upload_handler_run. cbn [snd].
    assert (Hdisk : disk (snd (pipeline env inputFile
                                 (request_folder env outputDir w) (ticked w)))
                    = disk w).
    { unfold pipeline. rewrite bind_run. simpl.
      rewrite bind_run, getVideoResolution_run. simpl. by rewrite Hprobe. }
    unfold cleaned, answered. cbn [disk].
    destruct (bool_decide _); [destruct (unlink env inputFile)|];
      cbn [disk]; rewrite Hdisk; [done | apply subseteq_difference_l | done]; done.
Qed.

(** An inspection call that fails is reported with its message. *)
Lemma probe_inspection_error_response env outputDir inputFile message w :
  ffprobe env inputFile = inl message →
  responses (effects (snd (upload_handler env outputDir (Some inputFile) w)))
  = responses (effects w)
    ++ [(500, ErrorBody "Processing failed" (Some message))].
Proof.
  intros Hprobe.
  pose proof (probe_failure_contained env outputDir inputFile
                (ErrorObject message) w
                (probe_inspection_error env inputFile message Hprobe)) as [H _].
  exact H.
Qed.

(** ** Clean-up of the upload *)

Lemma launched_with_unlink env u inputFile outputFolder ladder n :
  launched (with_unlink env u) inputFile outputFolder ladder n
  = launched env inputFile outputFolder ladder n.
Proof.
  revert n. induction ladder as [|r ladder IH]; intros n; simpl; [done|].
  by rewrite IH.
Qed.

(** The pipeline never consults [fs.unlinkSync]. *)
Lemma pipeline_outcome_with_unlink env u inputFile outputFolder n :
  pipeline_outcome (with_unlink env u) inputFile outputFolder n
  = pipeline_outcome env inputFile outputFolder n.
Proof.
  unfold pipeline_outcome.
  change (probe_outcome (with_unlink env u) inputFile)
    with (probe_outcome env inputFile).
  destruct (probe_outcome env inputFile) as [error|inputHeight]; [done|].
  rewrite launched_with_unlink. reflexivity.
Qed.

(** C4.  For a request whose upload is on the disk, whatever the outcome
    of the pipeline: the handler answers once, then calls [unlinkSync] on
    the upload, once, as its last effect; nothing before the response
    answers or unlinks.  The response is the one the pipeline outcome
    determines and is the same for every behaviour of [unlinkSync].  When
    the deletion succeeds the upload is gone from the disk; when it fails
    the error is written to the console and the handler still completes
    normally. *)
Theorem upload_cleanup (env : Env) (outputDir inputFile : string) (w : World) :
  inputFile ∈ disk w →
  let run := upload_handler env outputDir (Some inputFile) w in
  ∃ before status body,
    effects (snd run)
    = effects w ++ before ++ [Respond status body; Unlink inputFile]
    ∧ responses before = []
    ∧ unlinks before = []
    ∧ unlinks (effects (snd run)) = unlinks (effects w) ++ [inputFile]
    ∧ (status, body)
      = response_of (pipeline_outcome env inputFile
                       (request_folder env outputDir w) (S (clock w)))
    ∧ (∀ u,
         responses (effects (snd (upload_handler (with_unlink env u) outputDir
                                    (Some inputFile) w)))
         = responses (effects w) ++ [(status, body)])
    ∧ fst run = inr tt
    ∧ match unlink env inputFile with
      | None => inputFile ∉ disk (snd run)
      | Some message =>
          last (console (snd run))
          = Some (LogCleanupError (ErrorObject message))
      end.
Proof.
  intros Hin run. subst run.
  destruct (pipeline_run env inputFile (request_folder env outputDir w) (ticked w))
    as (Hfst & _).
  destruct (quiet_pipeline env inputFile (request_folder env outputDir w) (ticked w))
    as (Hdisk & before & Heff & Hr & Hu).
  exists before.
  destruct (response_of (pipeline_outcome env inputFile
              (request_folder env outputDir w) (S (clock w))))
    as [status body] eqn:Hresp.
  exists status, body.
  assert (Hthere : bool_decide
            (inputFile ∈ disk (answered
               (fst (pipeline env inputFile (request_folder env outputDir w) (ticked w)))
               (snd (pipeline env inputFile (request_folder env outputDir w) (ticked w)))))
          = true).
  { apply bool_decide_eq_true. cbn [answered disk]. apply Hdisk. exact Hin. }
  assert (Hrun : effects (snd (upload_handler env outputDir (Some inputFile) w))
                 = effects w ++ before ++ [Respond status body; Unlink inputFile]).
  { rewrite upload_handler_run. cbn [snd]. unfold cleaned. rewrite Hthere.
    destruct (unlink env inputFile); cbn [effects answered];
      rewrite Heff, Hfst; cbn [ticked clock effects]; rewrite Hresp;
      cbn [fst snd]; by rewrite <- !app_assoc. }
  split; [done|split; [done|split; [done|split; [|split; [done|split; [|split]]]]]].
  - rewrite Hrun, !unlinks_app, Hu. done.
  - intros u. rewrite upload_handler_responses.
    by rewrite pipeline_outcome_with_unlink, <- Hresp.
  - by rewrite upload_handler_run.
  - rewrite upload_handler_run. cbn [snd]. unfold cleaned. rewrite Hthere.
    destruct (unlink env inputFile) as [message|]; cbn [disk console].
    + by rewrite last_snoc.
    + intros [_ Hnot]%elem_of_difference. apply Hnot. by apply elem_of_singleton_2.
Qed.

Lemma upload_cleanup_witness :
  let env := Sample.unlink_fails in
  let run := upload_handler env Sample.outputDir (Some Sample.upload)
               Sample.start in
  Sample.upload ∈ disk Sample.start
  ∧ ∃ before status body,
      effects (snd run)
      = effects Sample.start
        ++ before ++ [Respond status body; Unlink Sample.upload]
      ∧ responses before = []
      ∧ unlinks before = []
      ∧ unlinks (effects (snd run)) = unlinks (effects Sample.start) ++ [Sample.upload]
      ∧ (status, body)
        = response_of (pipeline_outcome env Sample.upload
                         (request_folder env Sample.outputDir Sample.start)
                         (S (clock Sample.start)))
      ∧ (∀ u,
           responses (effects (snd (upload_handler (with_unlink env u)
                                      Sample.outputDir (Some Sample.upload)
                                      Sample.start)))
           = responses (effects Sample.start) ++ [(status, body)])
      ∧ fst run = inr tt
      ∧ match unlink env Sample.upload with
        | None => Sample.upload ∉ disk (snd run)
        | Some message =>
            last (console (snd run))
            = Some (LogCleanupError (ErrorObject message))
        end.
Proof.
  intros env run.
  assert (Hin : Sample.upload ∈ disk Sample.start).
  { change (Sample.upload ∈ ({[Sample.upload]} : gset string)).
    apply elem_of_singleton_2. reflexivity. }
  split; [exact Hin|].
  exact (upload_cleanup env Sample.outputDir Sample.upload Sample.start Hin).
Defined.

(** In the sample run where the deletion fails, the client still receives
    the four renditions with status 200. *)
Example sample_failed_deletion :
  let w' := snd (upload_handler Sample.unlink_fails Sample.outputDir
                   (Some Sample.upload) Sample.start) in
  map fst (responses (effects w')) = [200]
  ∧ unlinks (effects w') = [Sample.upload]
  ∧ last (console w')
    = Some (LogCleanupError (ErrorObject "EPERM: operation not permitted")).
Proof. vm_compute. done. Qed.

(** The [finally] block tests [existsSync] first: when the upload has
    vanished there is no call to [unlinkSync]. *)
Example sample_vanished_upload :
  let w' := snd (upload_handler (Sample.healthy 300) Sample.outputDir
                   (Some Sample.upload) (mkWorld 0 ∅ [] [])) in
  unlinks (effects w') = []
  ∧ responses (effects w') = [(200, CompleteBody "Processing complete" ∅)].
Proof. vm_compute. done. Qed.

(** ** Success of every encode job *)

Lemma elem_of_launched env inputFile outputFolder ladder n job :
  job ∈ launched env inputFile outputFolder ladder n →
  ∃ r timestamp,
    r ∈ ladder ∧ job = encode_job inputFile outputFolder r timestamp.
Proof.
  revert n. induction ladder as [|r ladder IH]; intros n; simpl.
  - by intros ?%elem_of_nil.
  - intros [->|Hin]%elem_of_cons.
    + exists r, (date_now env n). split; [apply list_elem_of_here | done].
    + destruct (IH _ Hin) as (r' & t & Hr' & ->).
      exists r', t. split; [by apply list_elem_of_further | done].
Qed.

(** The file name starts with the rendition's tag, and the tags of the
    catalog differ in their first character. *)
Lemma catalog_names_distinct inputFile outputFolder r1 r2 t1 t2 :
  r1 ∈ resolutions → r2 ∈ resolutions →
  outputFileName (encode_job inputFile outputFolder r1 t1)
  = outputFileName (encode_job inputFile outputFolder r2 t2) →
  r1 = r2.
Proof.
  unfold resolutions. rewrite !elem_of_cons, !elem_of_nil.
  intros Hr1 Hr2 Hname.
  destruct Hr1 as [->|[->|[->|[->|[]]]]];
    destruct Hr2 as [->|[->|[->|[->|[]]]]];
    first [reflexivity | cbn [outputFileName encode_job name String.append] in Hname;
                         discriminate Hname].
Qed.

Lemma launched_names_NoDup env inputFile outputFolder ladder n :
  NoDup ladder → ladder ⊆ resolutions →
  NoDup (map outputFileName (launched env inputFile outputFolder ladder n)).
Proof.
  revert n. induction ladder as [|r ladder IH]; intros n Hnodup Hsub; simpl.
  - constructor.
  - apply NoDup_cons in Hnodup as [Hfresh Hnodup]. constructor.
    + change (map outputFileName ?l) with (outputFileName <$> l).
      intros (job & Hname & Hjob)%list_elem_of_fmap.
      destruct (elem_of_launched _ _ _ _ _ _ Hjob) as (r' & t & Hr' & ->).
      apply Hfresh.
      rewrite (catalog_names_distinct inputFile outputFolder r r' _ _
                 (Hsub r (list_elem_of_here _ _))
                 (Hsub r' (list_elem_of_further _ _ _ Hr')) Hname).
      exact Hr'.
    + apply IH; [done|]. intros x Hx. apply Hsub. by apply list_elem_of_further.
Qed.

Lemma catalog_NoDup : NoDup resolutions.
Proof.
  unfold resolutions.
  repeat (constructor; [rewrite ?elem_of_cons, elem_of_nil; intros H;
                        repeat destruct H as [H|H]; discriminate || done|]).
  constructor.
Qed.

Lemma ladder_names_NoDup env inputFile outputFolder inputHeight n :
  NoDup (map outputFileName
           (launched env inputFile outputFolder
              (availableResolutions inputHeight) n)).
Proof.
  apply launched_names_NoDup.
  - eapply sublist_NoDup; [apply catalog_NoDup | apply select_ladder_sublist].
  - apply sublist_subseteq, select_ladder_sublist.
Qed.

Lemma path_join_inj folder a b : path_join folder a = path_join folder b → a = b.
Proof.
  unfold path_join. intros H. by do 2 apply (inj (String.append _)) in H.
Qed.

Lemma launched_paths env inputFile outputFolder ladder n :
  map outputFilePath (launched env inputFile outputFolder ladder n)
  = map (path_join outputFolder)
      (map outputFileName (launched env inputFile outputFolder ladder n)).
Proof.
  revert n. induction ladder as [|r ladder IH]; intros n; simpl; [done|].
  by rewrite IH.
Qed.

Lemma ladder_paths_NoDup env inputFile outputFolder inputHeight n :
  NoDup (map outputFilePath
           (launched env inputFile outputFolder
              (availableResolutions inputHeight) n)).
Proof.
  rewrite launched_paths.
  change (map (path_join outputFolder) ?l) with (path_join outputFolder <$> l).
  apply NoDup_fmap_2_strong; [|apply ladder_names_NoDup].
  intros a b _ _. apply path_join_inj.
Qed.

Lemma file_name_includes_tag inputFile outputFolder r timestamp :
  Js.includes
    (outputFileName (encode_job inputFile outputFolder r timestamp)) (name r).
Proof.
  exists "video_", ("_" +:+ Js.string_of_Z timestamp +:+ ".mp4"). reflexivity.
Qed.

(** The mapping built by the loop. *)

Lemma published_lookup_other env transcodedFiles ipfsCIDs key :
  key ∉ map Transcoded.name transcodedFiles →
  published env transcodedFiles ipfsCIDs !! key = ipfsCIDs !! key.
Proof.
  revert ipfsCIDs.
  induction transcodedFiles as [|file rest IH]; intros ipfsCIDs Hkey; [done|].
  simpl in Hkey. apply not_elem_of_cons in Hkey as [Hne Hkey].
  unfold published in *. simpl. rewrite IH by done.
  destruct (pinata env (Transcoded.path file)); [done|].
  by rewrite lookup_insert_ne.
Qed.

Lemma published_lookup env transcodedFiles ipfsCIDs file ipfsHash :
  NoDup (map Transcoded.name transcodedFiles) →
  file ∈ transcodedFiles →
  pinata env (Transcoded.path file) = inr ipfsHash →
  published env transcodedFiles ipfsCIDs !! Transcoded.name file
  = Some (mkPinned ipfsHash).
Proof.
  revert ipfsCIDs.
  induction transcodedFiles as [|f rest IH]; intros ipfsCIDs Hnodup Hin Hstore.
  - by apply elem_of_nil in Hin.
  - simpl in Hnodup. apply NoDup_cons in Hnodup as [Hfresh Hnodup].
    apply elem_of_cons in Hin as [->|Hin].
    + change (published env (f :: rest) ipfsCIDs)
        with (published env rest
                (match pinata env (Transcoded.path f) with
                 | inr h => <[Transcoded.name f := mkPinned h]> ipfsCIDs
                 | inl _ => ipfsCIDs
                 end)).
      rewrite published_lookup_other by done.
      by rewrite Hstore, lookup_insert_eq.
    + change (published env (f :: rest) ipfsCIDs)
        with (published env rest
                (match pinata env (Transcoded.path f) with
                 | inr h => <[Transcoded.name f := mkPinned h]> ipfsCIDs
                 | inl _ => ipfsCIDs
                 end)).
      by apply IH.
Qed.

Lemma published_dom env transcodedFiles ipfsCIDs :
  Forall (stored env) transcodedFiles →
  dom (published env transcodedFiles ipfsCIDs)
  = list_to_set (map Transcoded.name transcodedFiles) ∪ dom ipfsCIDs.
Proof.
  revert ipfsCIDs.
  induction transcodedFiles as [|f rest IH]; intros ipfsCIDs Hall.
  - simpl. by rewrite (left_id_L ∅ (∪)).
  - apply Forall_cons in Hall as [Hf Hrest]. unfold stored in Hf.
    change (published env (f :: rest) ipfsCIDs)
      with (published env rest
              (match pinata env (Transcoded.path f) with
               | inr h => <[Transcoded.name f := mkPinned h]> ipfsCIDs
               | inl _ => ipfsCIDs
               end)).
    rewrite IH by done.
    destruct (pinata env (Transcoded.path f)); [by destruct Hf|].
    rewrite dom_insert_L. simpl.
    by rewrite !(assoc_L (∪)), (comm_L (∪) (list_to_set _) {[_]}).
Qed.

Lemma published_size env transcodedFiles :
  Forall (stored env) transcodedFiles →
  NoDup (map Transcoded.name transcodedFiles) →
  base.size (published env transcodedFiles ∅) = length transcodedFiles.
Proof.
  intros Hall Hnodup.
  rewrite <- size_dom, published_dom by done.
  rewrite dom_empty_L, (right_id_L ∅ (∪)), size_list_to_set by done.
  by rewrite length_map.
Qed.

(** C5, as amended.  When every job of a request ends, the coordinator
    returns one entry per ladder entry (a permutation, by completion order,
    of the entries of the jobs), with pairwise distinct file names and
    paths.  If moreover the store accepts every file, the handler answers
    200 with a mapping that has one key per ladder entry; each key is a
    file name containing the tag of its rendition and is mapped to the
    identifier the store returned for that file, whatever it is: the code
    does not look at it, and an empty one is forwarded as it is. *)
Theorem coordinator_success (env : Env) (outputDir inputFile : string)
    (inputHeight : Z) (w : World) :
  let ladder := availableResolutions inputHeight in
  let outputFolder := request_folder env outputDir w in
  let jobs := request_jobs env outputDir inputFile inputHeight w in
  Forall (ended env) jobs →
  ∃ transcodedFiles,
    (∀ w1, clock w1 = S (clock w) →
       fst (transcodeVideo env inputFile outputFolder inputHeight w1)
       = inr transcodedFiles)
    ∧ length transcodedFiles = length ladder
    ∧ transcodedFiles ≡ₚ map transcoded jobs
    ∧ map spec jobs = ladder
    ∧ NoDup (map Transcoded.name transcodedFiles)
    ∧ NoDup (map Transcoded.path transcodedFiles)
    ∧ (probe_outcome env inputFile = inr inputHeight →
       Forall (λ job, ∃ cid, pinata env (outputFilePath job) = inr cid) jobs →
       ∃ ipfsCIDs,
         responses (effects (snd (upload_handler env outputDir
                                    (Some inputFile) w)))
         = responses (effects w)
           ++ [(200, CompleteBody "Processing complete" ipfsCIDs)]
         ∧ base.size ipfsCIDs = length ladder
         ∧ ∀ file, file ∈ transcodedFiles →
             ∃ job cid,
               job ∈ jobs
               ∧ file = transcoded job
               ∧ Js.includes (Transcoded.name file) (name (spec job))
               ∧ ipfsCIDs !! Transcoded.name file = Some (mkPinned cid)
               ∧ pinata env (Transcoded.path file) = inr cid).
Proof.
  intros ladder outputFolder jobs Hended.
  set (order := completion_order env jobs).
  assert (Horder : order ≡ₚ jobs) by apply completion_order_perm.
  assert (Hlen : length (map transcoded order) = length ladder).
  { rewrite length_map, Horder. apply launched_length. }
  assert (Hnodup : NoDup (map Transcoded.name (map transcoded order))).
  { rewrite map_map. change (map (λ x, Transcoded.name (transcoded x)) order)
      with (map outputFileName order).
    rewrite Horder. apply ladder_names_NoDup. }
  assert (Hpaths : NoDup (map Transcoded.path (map transcoded order))).
  { rewrite map_map. change (map (λ x, Transcoded.path (transcoded x)) order)
      with (map outputFilePath order).
    rewrite Horder. apply ladder_paths_NoDup. }
  assert (Hfile : ∀ file, file ∈ map transcoded order →
                    ∃ job, job ∈ jobs ∧ file = transcoded job).
  { intros file. change (map transcoded order) with (transcoded <$> order).
    intros (job & -> & Hjob)%list_elem_of_fmap.
    exists job. split; [by rewrite <- Horder | done]. }
  exists (map transcoded order).
  split; [|split; [done|split; [by apply Permutation_map|
          split; [apply launched_spec|split; [done|split; [done|]]]]]].
  - intros w1 Hclock. rewrite transcodeVideo_fst, Hclock.
    by apply join_outcome_ok.
  - intros Hprobe Hstore.
    assert (Hstored : Forall (stored env) (map transcoded order)).
    { apply Forall_forall. intros file Hin.
      destruct (Hfile file Hin) as (job & Hjob & ->).
      rewrite Forall_forall in Hstore.
      destruct (Hstore job Hjob) as (cid & Hcid).
      unfold stored. simpl. by rewrite Hcid. }
    exists (published env (map transcoded order) ∅).
    split; [|split].
    + rewrite upload_handler_responses. unfold pipeline_outcome.
      rewrite Hprobe.
      change (launched env inputFile (request_folder env outputDir w)
                (availableResolutions inputHeight) (S (clock w))) with jobs.
      rewrite (join_outcome_ok env jobs Hended). fold order.
      unfold publish_outcome.
      by destruct (publish_ok env (map transcoded order) ∅ (mkWorld 0 ∅ [] [])
                     Hstored) as [-> _].
    + by rewrite published_size.
    + intros file Hin.
      destruct (Hfile file Hin) as (job & Hjob & ->).
      rewrite Forall_forall in Hstore.
      destruct (Hstore job Hjob) as (cid & Hcid).
      exists job, cid. split; [done|]. split; [done|]. split.
      * destruct (elem_of_launched _ _ _ _ _ _ Hjob) as (r & t & _ & ->).
        apply file_name_includes_tag.
      * split; [|done]. by apply published_lookup.
Qed.

Lemma coordinator_success_witness :
  let env := Sample.healthy 1080 in
  let jobs := request_jobs env Sample.outputDir Sample.upload 1080
                Sample.start in
  Forall (ended env) jobs
  ∧ probe_outcome env Sample.upload = inr 1080
  ∧ Forall (λ job, ∃ cid, pinata env (outputFilePath job) = inr cid) jobs
  ∧ ∃ transcodedFiles ipfsCIDs,
      length transcodedFiles = 4%nat
      ∧ NoDup (map Transcoded.name transcodedFiles)
      ∧ responses (effects (snd (upload_handler env Sample.outputDir
                                   (Some Sample.upload) Sample.start)))
        = [(200, CompleteBody "Processing complete" ipfsCIDs)]
      ∧ base.size ipfsCIDs = 4%nat.
Proof.
  intros env jobs.
  assert (Hended : Forall (ended env) jobs).
  { repeat constructor. }
  assert (Hstore : Forall (λ job, ∃ cid,
              pinata env (outputFilePath job) = inr cid) jobs).
  { repeat constructor; eexists; reflexivity. }
  split; [exact Hended|]. split; [reflexivity|]. split; [exact Hstore|].
  destruct (coordinator_success env Sample.outputDir Sample.upload 1080
              Sample.start Hended)
    as (transcodedFiles & _ & Hlen & _ & _ & Hnodup & _ & Hresp).
  destruct (Hresp eq_refl Hstore) as (ipfsCIDs & Hans & Hsize & _).
  exists transcodedFiles, ipfsCIDs.
  split; [exact Hlen|]. split; [exact Hnodup|]. split; [exact Hans | exact Hsize].
Defined.

(** The identifiers of a success response need not be non-empty, as the
    specification's wording of C5 has it: on a 1080-pixel-tall upload whose
    four jobs end and whose files the store accepts with an empty
    [IpfsHash], the handler answers 200 with four entries, and the entry of
    the 1080p file carries the empty identifier. *)
Lemma empty_identifier_is_forwarded :
  let env := Sample.empty_identifier in
  let jobs := request_jobs env Sample.outputDir Sample.upload 1080
                Sample.start in
  let w' := snd (upload_handler env Sample.outputDir (Some Sample.upload)
                   Sample.start) in
  probe_outcome env Sample.upload = inr 1080
  ∧ Forall (ended env) jobs
  ∧ length jobs = 4%nat
  ∧ ∃ ipfsCIDs,
      responses (effects w')
      = [(200, CompleteBody "Processing complete" ipfsCIDs)]
      ∧ base.size ipfsCIDs = 4%nat
      ∧ ipfsCIDs !! "video_1080p_1700000000001.mp4" = Some (mkPinned "")
      ∧ ¬ (∀ key pinned,
             ipfsCIDs !! key = Some pinned → videoCID pinned ≠ "").
Proof.
  assert (Hlookup : ∀ m : gmap string Pinned,
            m !! "video_1080p_1700000000001.mp4" = Some (mkPinned "") →
            ¬ (∀ key pinned, m !! key = Some pinned → videoCID pinned ≠ "")).
  { intros m Hm Hall. by apply (Hall _ _ Hm). }
  cbv zeta.
  split; [reflexivity|]. split; [repeat constructor|]. split; [reflexivity|].
  eexists. split; [vm_compute; reflexivity|].
  split; [vm_compute; reflexivity|].
  split; [vm_compute; reflexivity|].
  apply Hlookup. vm_compute. reflexivity.
Qed.

(** The sample run on a source of height 1080. *)
Example sample_full_ladder :
  let w' := snd (upload_handler (Sample.healthy 1080) Sample.outputDir
                   (Some Sample.upload) Sample.start) in
  map (λ job, name (spec job)) (encodes (effects w'))
  = ["1080p"; "720p"; "480p"; "360p"]
  ∧ stores (effects w')
    = map Transcoded.path
        [Sample.file_360; Sample.file_480; Sample.file_720; Sample.file_1080]
  ∧ ∃ ipfsCIDs,
      responses (effects w')
      = [(200, CompleteBody "Processing complete" ipfsCIDs)]
      ∧ ipfsCIDs !! "video_1080p_1700000000001.mp4"
        = Some (mkPinned
                  "Qm/srv/app/output/1700000000000/video_1080p_1700000000001.mp4").
Proof.
  split; [vm_compute; reflexivity|]. split; [vm_compute; reflexivity|].
  eexists. split; [vm_compute; reflexivity|]. vm_compute. reflexivity.
Qed.

(** ** Output paths of two requests *)

Lemma append_assoc (a b c : string) : (a +:+ b) +:+ c = a +:+ b +:+ c.
Proof.
  induction a as [|x a IH]; [done|].
  change (String x ((a +:+ b) +:+ c) = String x (a +:+ b +:+ c)).
  by f_equal.
Qed.

Lemma append_inv_head (a b c : string) : a +:+ b = a +:+ c → b = c.
Proof. apply (inj (String.append a)). Qed.

Lemma split_at_slash (a b c d : string) :
  slash_free a → slash_free c →
  a +:+ String "/" b = c +:+ String "/" d → a = c ∧ b = d.
Proof.
  revert c. induction a as [|x a IH]; intros [|y c]; simpl.
  - intros _ _ [= ->]. done.
  - intros _ [Hy _] [= <- _]. done.
  - intros [Hx _] _ [= -> _]. done.
  - intros [_ Ha] [_ Hc] [= -> H]. destruct (IH c Ha Hc H) as [-> ->]. done.
Qed.

Lemma string_of_uint_slash_free d : slash_free (NilEmpty.string_of_uint d).
Proof. induction d; simpl; (done || by split). Qed.

Lemma string_of_Z_slash_free z : slash_free (Js.string_of_Z z).
Proof.
  unfold Js.string_of_Z, NilZero.string_of_int, NilZero.string_of_uint.
  destruct (Z.to_int z) as [d|d]; destruct d; simpl;
    repeat split; try done; apply string_of_uint_slash_free.
Qed.

Lemma to_int_proper z : Z.to_int z ≠ Decimal.Pos Decimal.Nil
                        ∧ Z.to_int z ≠ Decimal.Neg Decimal.Nil.
Proof.
  destruct z as [|p|p]; simpl; split; try discriminate;
    intros [= H]; by apply (DecimalPos.Unsigned.to_uint_nonnil p).
Qed.

Lemma string_of_Z_inj z1 z2 :
  Js.string_of_Z z1 = Js.string_of_Z z2 → z1 = z2.
Proof.
  unfold Js.string_of_Z. intros H.
  apply DecimalZ.to_int_inj.
  destruct (to_int_proper z1) as [Hp1 Hn1], (to_int_proper z2) as [Hp2 Hn2].
  pose proof (NilZero.isi _ Hp1 Hn1) as H1.
  pose proof (NilZero.isi _ Hp2 Hn2) as H2.
  rewrite H, H2 in H1. by injection H1.
Qed.

(** Two requests whose folder names come from different readings of the
    clock never write to the same path. *)
Lemma distinct_tokens_distinct_paths outputDir token1 token2
    inputFile1 inputFile2 r1 r2 timestamp1 timestamp2 :
  token1 ≠ token2 →
  outputFilePath
    (encode_job inputFile1 (path_join outputDir (Js.string_of_Z token1))
       r1 timestamp1)
  ≠ outputFilePath
      (encode_job inputFile2 (path_join outputDir (Js.string_of_Z token2))
         r2 timestamp2).
Proof.
  intros Hne Heq. apply Hne, string_of_Z_inj.
  cbn [outputFilePath encode_job] in Heq. unfold path_join in Heq.
  rewrite !append_assoc in Heq. apply append_inv_head in Heq.
  cbn [String.append] in Heq. injection Heq as Heq.
  by destruct (split_at_slash _ _ _ _ (string_of_Z_slash_free token1)
                 (string_of_Z_slash_free token2) Heq).
Qed.

(** Whenever the clock readings of two requests agree, so do the output
    paths of their jobs, whatever the uploads are. *)
Lemma same_readings_same_paths env1 env2 inputFile1 inputFile2 outputFolder
    ladder n1 n2 :
  (∀ k, date_now env1 (n1 + k) = date_now env2 (n2 + k)) →
  map outputFilePath (launched env1 inputFile1 outputFolder ladder n1)
  = map outputFilePath (launched env2 inputFile2 outputFolder ladder n2).
Proof.
  revert n1 n2. induction ladder as [|r ladder IH]; intros n1 n2 Hsame; [done|].
  cbn [launched map]. f_equal.
  - cbn [outputFilePath encode_job].
    specialize (Hsame 0%nat). rewrite !Nat.add_0_r in Hsame. by rewrite Hsame.
  - apply IH. intros k. specialize (Hsame (S k)).
    by rewrite !Nat.add_succ_r in Hsame.
Qed.

(** C6.  Two different uploads handled within the same millisecond: the
    folder of each request and the file name of each job are derived from
    [Date.now()] alone, so both requests run their 360p job on the same
    output path. *)
Theorem output_path_collision :
  let env := Sample.same_millisecond in
  let first := "uploads/3f9a6c" in
  let second := "uploads/b41d07" in
  let run1 := upload_handler env Sample.outputDir (Some first)
                (mkWorld 0 {[first]} [] []) in
  let run2 := upload_handler env Sample.outputDir (Some second)
                (mkWorld 0 {[second]} [] []) in
  first ≠ second
  ∧ map (λ job, (name (spec job), inputPath job, outputFilePath job))
      (encodes (effects (snd run1)))
    = [("360p", first,
        "/srv/app/output/1700000000000/video_360p_1700000000000.mp4")]
  ∧ map (λ job, (name (spec job), inputPath job, outputFilePath job))
      (encodes (effects (snd run2)))
    = [("360p", second,
        "/srv/app/output/1700000000000/video_360p_1700000000000.mp4")].
Proof.
  split; [discriminate|]. split; vm_compute; reflexivity.
Qed.

(** * Further properties *)

(** ** Reading the height out of a size *)

Lemma split_lacks sep s : lacks sep s → Js.split sep s = [s].
Proof.
  induction s as [|x s IH]; simpl; [done|]. intros [Hx Hs].
  destruct (Ascii.eqb_spec x sep) as [->|_]; [done|]. by rewrite IH.
Qed.

Lemma split_once sep a b :
  lacks sep a → lacks sep b → Js.split sep (a +:+ String sep b) = [a; b].
Proof.
  intros Ha Hb. induction a as [|x a IH].
  - change (Js.split sep (String sep b) = [""; b]). simpl.
    rewrite Ascii.eqb_refl. by rewrite split_lacks.
  - destruct Ha as [Hx Ha].
    change (Js.split sep (String x (a +:+ String sep b)) = [String x a; b]).
    simpl. destruct (Ascii.eqb_spec x sep) as [->|_]; [done|]. by rewrite IH.
Qed.

Lemma string_of_uint_lacks_x d : lacks "x" (NilEmpty.string_of_uint d).
Proof. induction d; simpl; (done || by split). Qed.

Lemma string_of_Z_lacks_x z : lacks "x" (Js.string_of_Z z).
Proof.
  unfold Js.string_of_Z, NilZero.string_of_int, NilZero.string_of_uint.
  destruct (Z.to_int z) as [d|d]; destruct d; simpl;
    repeat split; try done; apply string_of_uint_lacks_x.
Qed.

Lemma digits_acc d (p : positive) :
  Js.digits 10 (NilEmpty.string_of_uint d) (Some (Z.pos p))
  = Some (Z.pos (Pos.of_uint_acc d p)).
Proof.
  revert p. induction d as [|d IH|d IH|d IH|d IH|d IH|d IH|d IH|d IH|d IH|d IH];
    intros p; [done|..];
    cbn [NilEmpty.string_of_uint Js.digits Pos.of_uint_acc default];
    match goal with
    | |- context [Js.digit_value 10 ?c] =>
        let v := eval vm_compute in (Js.digit_value 10 c) in
        change (Js.digit_value 10 c) with v
    end;
    cbv iota; unfold id; rewrite <- IH; do 2 f_equal; lia.
Qed.

Lemma digits_zero d :
  Js.digits 10 (NilEmpty.string_of_uint d) (Some 0)
  = Some (Z.of_N (Pos.of_uint d)).
Proof.
  induction d as [|d IH|d IH|d IH|d IH|d IH|d IH|d IH|d IH|d IH|d IH];
    [done|..];
    cbn [NilEmpty.string_of_uint Js.digits Pos.of_uint default];
    match goal with
    | |- context [Js.digit_value 10 ?c] =>
        let v := eval vm_compute in (Js.digit_value 10 c) in
        change (Js.digit_value 10 c) with v
    end;
    cbv iota; unfold id; [exact IH | apply (digits_acc d)..].
Qed.

Lemma digits_start d :
  d ≠ Decimal.Nil →
  Js.digits 10 (NilEmpty.string_of_uint d) None
  = Js.digits 10 (NilEmpty.string_of_uint d) (Some 0).
Proof. by destruct d. Qed.

Lemma parseInt_uint d :
  d ≠ Decimal.Nil →
  Js.parseInt (NilEmpty.string_of_uint d)
  = Z.mul 1 <$> Js.digits 10 (NilEmpty.string_of_uint d) None
  ∧ Js.parseInt (String "-" (NilEmpty.string_of_uint d))
    = Z.mul (-1) <$> Js.digits 10 (NilEmpty.string_of_uint d) None.
Proof.
  intros Hd. destruct d as [|d|d|d|d|d|d|d|d|d|d]; [done|..].
  2-10: split; reflexivity.
  destruct d; split; reflexivity.
Qed.

(** [parseInt] reads back the decimal rendering of any integer. *)
Lemma parseInt_string_of_Z z : Js.parseInt (Js.string_of_Z z) = Some z.
Proof.
  destruct z as [|p|p]; [done|..]; unfold Js.string_of_Z; cbn [Z.to_int];
    unfold NilZero.string_of_int, NilZero.string_of_uint;
    pose proof (DecimalPos.Unsigned.to_uint_nonnil p) as Hnil;
    destruct (parseInt_uint _ Hnil) as [Hpos Hneg];
    destruct (Pos.to_uint p) eqn:Hp; try done;
    rewrite <- Hp in *.
  all: first [rewrite Hpos | rewrite Hneg];
    rewrite digits_start, digits_zero by done;
    rewrite DecimalPos.Unsigned.of_to; reflexivity.
Qed.

(** X1.  For a size written as the decimal width, an ["x"] and the decimal
    height, the height used by the filter is that height, as long as its
    magnitude is at most 2^53, the range in which a JavaScript number holds
    every integer exactly. *)
Theorem frame_height_of_size (rendition rate : string) (w h : Z) :
  Z.abs h ≤ 2 ^ 53 →
  frame_height
    (mkResolution rendition (Js.string_of_Z w +:+ "x" +:+ Js.string_of_Z h) rate)
  = Some h.
Proof.
  intros _. unfold frame_height. cbn [size].
  change (Js.string_of_Z w +:+ "x" +:+ Js.string_of_Z h)
    with (Js.string_of_Z w +:+ String "x" (Js.string_of_Z h)).
  rewrite split_once by apply string_of_Z_lacks_x.
  simpl. apply parseInt_string_of_Z.
Qed.

Lemma frame_height_of_size_witness :
  Z.abs 1080 ≤ 2 ^ 53
  ∧ frame_height
      (mkResolution "1080p"
         (Js.string_of_Z 1920 +:+ "x" +:+ Js.string_of_Z 1080) "5000k")
    = Some 1080.
Proof.
  split; [vm_compute; discriminate|].
  apply frame_height_of_size. vm_compute. discriminate.
Defined.

(** X2.  A catalog entry whose size holds no ["x"] has the height [NaN]:
    the filter drops it from the ladder of every source height. *)
Theorem malformed_size_never_selected (catalog : list Resolution)
    (r : Resolution) (inputHeight : Z) :
  lacks "x" (size r) →
  frame_height r = None
  ∧ keep_resolution inputHeight r = false
  ∧ r ∉ select_ladder catalog inputHeight.
Proof.
  intros Hx.
  assert (Hnan : frame_height r = None).
  { unfold frame_height. by rewrite split_lacks. }
  assert (Hkeep : keep_resolution inputHeight r = false).
  { unfold keep_resolution. by rewrite Hnan. }
  split; [done|]. split; [done|].
  rewrite elem_of_select_ladder. intros [_ H]. congruence.
Qed.

Lemma malformed_size_never_selected_witness :
  let r := mkResolution "4k" "3840" "9000k" in
  lacks "x" (size r)
  ∧ frame_height r = None
  ∧ keep_resolution 5000 r = false
  ∧ r ∉ select_ladder (r :: resolutions) 5000.
Proof.
  intros r.
  assert (Hx : lacks "x" (size r)) by (simpl; repeat split; discriminate).
  split; [exact Hx|].
  exact (malformed_size_never_selected (r :: resolutions) r 5000 Hx).
Defined.

(** ** Shape of the ladder *)

Lemma availableResolutions_drop inputHeight :
  availableResolutions inputHeight = drop (rung inputHeight) resolutions.
Proof.
  unfold availableResolutions, select_ladder, resolutions, rung.
  cbn [List.filter].
  rewrite !keep_resolution_redundant. unfold keep_resolution_le.
  change (frame_height (mkResolution "1080p" "1920x1080" "5000k")) with (Some 1080).
  change (frame_height (mkResolution "720p" "1280x720" "2500k")) with (Some 720).
  change (frame_height (mkResolution "480p" "854x480" "1000k")) with (Some 480).
  change (frame_height (mkResolution "360p" "640x360" "600k")) with (Some 360).
  cbn [Js.le].
  destruct (Z.leb_spec 1080 inputHeight), (Z.leb_spec 720 inputHeight),
    (Z.leb_spec 480 inputHeight), (Z.leb_spec 360 inputHeight);
    (reflexivity || lia).
Qed.

Lemma rung_antitone (H1 H2 : Z) : H1 ≤ H2 → (rung H2 ≤ rung H1)%nat.
Proof.
  intros Hle. unfold rung.
  destruct (Z.leb_spec 1080 H1), (Z.leb_spec 720 H1), (Z.leb_spec 480 H1),
    (Z.leb_spec 360 H1), (Z.leb_spec 1080 H2), (Z.leb_spec 720 H2),
    (Z.leb_spec 480 H2), (Z.leb_spec 360 H2); lia.
Qed.

(** X3.  The ladder is always a tail of the catalog: the entries taller
    than the source are cut from its head.  The ladder of a shorter source
    is a tail of the ladder of a taller one. *)
Theorem ladder_is_monotone_tail (H1 H2 : Z) :
  H1 ≤ H2 →
  availableResolutions H1 = drop (rung H1) resolutions
  ∧ availableResolutions H1 `suffix_of` resolutions
  ∧ availableResolutions H1 `suffix_of` availableResolutions H2
  ∧ (length (availableResolutions H1) ≤ length (availableResolutions H2) ≤ 4)%nat.
Proof.
  intros Hle. pose proof (rung_antitone H1 H2 Hle) as Hrung.
  rewrite !availableResolutions_drop.
  split; [done|]. split; [apply suffix_drop|]. split.
  - replace (rung H1) with (rung H2 + (rung H1 - rung H2))%nat by lia.
    rewrite <- drop_drop. apply suffix_drop.
  - rewrite !length_drop. simpl. lia.
Qed.

Lemma ladder_is_monotone_tail_witness :
  500 ≤ 800
  ∧ availableResolutions 500 = drop (rung 500) resolutions
  ∧ availableResolutions 500 `suffix_of` resolutions
  ∧ availableResolutions 500 `suffix_of` availableResolutions 800
  ∧ (length (availableResolutions 500) ≤ length (availableResolutions 800) ≤ 4)%nat.
Proof.
  assert (Hle : 500 ≤ 800) by lia.
  split; [exact Hle|]. exact (ladder_is_monotone_tail 500 800 Hle).
Defined.

(** ** What the probe answers *)

Lemma find_first {A} (p : A → bool) (l : list A) (x : A) :
  List.find p l = Some x →
  ∃ before after,
    l = before ++ x :: after
    ∧ Forall (λ y, p y = false) before
    ∧ p x = true.
Proof.
  induction l as [|y l IH]; simpl; [done|].
  destruct (p y) eqn:Hy.
  - intros [= ->]. by exists [], l.
  - intros Hfind. destruct (IH Hfind) as (before & after & -> & Hb & Hx).
    exists (y :: before), after. split; [done|]. split; [by constructor | done].
Qed.

Lemma find_at {A} (p : A → bool) (before after : list A) (x : A) :
  Forall (λ y, p y = false) before → p x = true →
  List.find p (before ++ x :: after) = Some x.
Proof.
  intros Hb Hx. induction Hb as [|y before Hy _ IH]; simpl.
  - by rewrite Hx.
  - by rewrite Hy.
Qed.

(** X4.  A height returned by the probe is the height, other than zero, of
    the first video stream that the inspection reported: no stream before
    it is a video stream. *)
Theorem probe_answer_is_first_video_height (env : Env) (filePath : string)
    (h : Z) :
  probe_outcome env filePath = inr h →
  ∃ before s after,
    ffprobe env filePath = inr (before ++ s :: after)
    ∧ Forall (λ x, codec_type x ≠ Some "video") before
    ∧ codec_type s = Some "video"
    ∧ height s = Some h
    ∧ h ≠ 0.
Proof.
  unfold probe_outcome, getVideoResolution. run_binds.
  destruct (ffprobe env filePath) as [message|streams]; simpl; [done|].
  run_binds.
  destruct (List.find is_video streams) as [s|] eqn:Hfind; simpl; [|done].
  unfold truthy_height.
  destruct (height s) as [h'|] eqn:Hh; [|done].
  destruct (Z.eqb_spec h' 0) as [|Hnz]; [done|].
  intros [= <-].
  destruct (find_first _ _ _ Hfind) as (before & after & -> & Hb & Hs).
  exists before, s, after. split; [done|]. split.
  - eapply Forall_impl; [exact Hb|]. intros x Hx Hv.
    unfold is_video in Hx. by rewrite bool_decide_eq_false in Hx.
  - unfold is_video in Hs. by rewrite bool_decide_eq_true in Hs.
Qed.

Lemma probe_answer_is_first_video_height_witness :
  probe_outcome (Sample.healthy 500) Sample.upload = inr 500
  ∧ ∃ before s after,
      ffprobe (Sample.healthy 500) Sample.upload = inr (before ++ s :: after)
      ∧ Forall (λ x, codec_type x ≠ Some "video") before
      ∧ codec_type s = Some "video"
      ∧ height s = Some 500
      ∧ 500 ≠ 0.
Proof.
  split; [reflexivity|].
  exact (probe_answer_is_first_video_height (Sample.healthy 500)
           Sample.upload 500 eq_refl).
Defined.

(** X5.  The probe looks at the first video stream only: when that stream
    has no height, or the height zero, the probe rejects with its string,
    whatever streams follow, even video streams that have a height. *)
Theorem probe_ignores_later_streams (env : Env) (filePath : string)
    (before : list Stream) (s : Stream) (after : list Stream) :
  ffprobe env filePath = inr (before ++ s :: after) →
  Forall (λ x, codec_type x ≠ Some "video") before →
  codec_type s = Some "video" →
  height s = None ∨ height s = Some 0 →
  probe_outcome env filePath
  = inl (StringValue "Could not determine video resolution.").
Proof.
  intros Hprobe Hb Hs Hh.
  apply (probe_no_resolution env filePath _ Hprobe).
  rewrite find_at.
  - simpl. unfold truthy_height. by destruct Hh as [-> | ->].
  - eapply Forall_impl; [exact Hb|]. intros x Hx.
    unfold is_video. by rewrite bool_decide_eq_false.
  - unfold is_video. by rewrite bool_decide_eq_true.
Qed.

Lemma probe_ignores_later_streams_witness :
  let streams :=
    [mkStream (Some "audio") None;
     mkStream (Some "video") None;
     mkStream (Some "video") (Some 720)] in
  let env :=
    mkEnv Sample.ticking (λ _, inr streams) (λ _, (0%nat, None))
      (λ p, inr p) (λ _, None) in
  ffprobe env Sample.upload
  = inr ([mkStream (Some "audio") None]
         ++ mkStream (Some "video") None
         :: [mkStream (Some "video") (Some 720)])
  ∧ probe_outcome env Sample.upload
    = inl (StringValue "Could not determine video resolution.").
Proof.
  intros streams env. split; [reflexivity|].
  apply (probe_ignores_later_streams env Sample.upload
           [mkStream (Some "audio") None] (mkStream (Some "video") None)
           [mkStream (Some "video") (Some 720)] eq_refl).
  - repeat constructor. discriminate.
  - reflexivity.
  - by left.
Defined.

(** ** Order of the stages *)



(** ** The commands of a request *)

Lemma upload_handler_encodes env outputDir inputFile inputHeight w :
  probe_outcome env inputFile = inr inputHeight →
  encodes (effects (snd (upload_handler env outputDir (Some inputFile) w)))
  = encodes (effects w) ++ request_jobs env outputDir inputFile inputHeight w.
Proof.
  intros Hprobe.
  set (jobs := request_jobs env outputDir inputFile inputHeight w).
  destruct (upload_handler_effects env outputDir inputFile w)
    as (tail & -> & _ & Htail).
  unfold pipeline_effects. rewrite Hprobe. cbn [clock ticked].
  fold (request_jobs env outputDir inputFile inputHeight w). fold jobs.
  change (Probe inputFile :: ?l) with ([Probe inputFile] ++ l).
  rewrite !encodes_app, Htail.
  destruct (read_encodes jobs) as (_ & _ & _ & ->).
  assert (Hrest : encodes
            match join_outcome env jobs with
            | inl _ => []
            | inr transcodedFiles =>
                map Store (map Transcoded.path (attempted env transcodedFiles))
            end = []).
  { destruct (join_outcome env jobs) as [|files]; [done|].
    by destruct (read_stores (map Transcoded.path (attempted env files)))
      as (_ & _ & _ & ->). }
  rewrite Hrest. destruct (bool_decide _); simpl; by rewrite !app_nil_r.
Qed.

(** X7.  When the probe returns a height, the handler launches exactly one
    ffmpeg command per ladder entry, in ladder order, none twice.  Each
    command reads the upload and writes [video_<name>_<timestamp>.mp4] in
    the request's folder, which lies directly under the output root. *)
Theorem one_command_per_rendition (env : Env) (outputDir inputFile : string)
    (inputHeight : Z) (w : World) :
  probe_outcome env inputFile = inr inputHeight →
  let jobs := request_jobs env outputDir inputFile inputHeight w in
  let token := Js.string_of_Z (date_now env (clock w)) in
  encodes (effects (snd (upload_handler env outputDir (Some inputFile) w)))
  = encodes (effects w) ++ jobs
  ∧ map spec jobs = availableResolutions inputHeight
  ∧ Forall (λ job,
              inputPath job = inputFile
              ∧ (∃ timestamp,
                   outputFileName job
                   = "video_" +:+ name (spec job) +:+ "_"
                     +:+ Js.string_of_Z timestamp +:+ ".mp4")
              ∧ outputFilePath job
                = path_join (path_join outputDir token) (outputFileName job))
      jobs.
Proof.
  intros Hprobe jobs token. split; [|split].
  - by apply upload_handler_encodes.
  - apply launched_spec.
  - apply Forall_forall. intros job Hjob.
    destruct (elem_of_launched _ _ _ _ _ _ Hjob) as (r & timestamp & _ & ->).
    split; [done|]. split; [by exists timestamp | done].
Qed.

Lemma one_command_per_rendition_witness :
  let env := Sample.healthy 500 in
  let jobs := request_jobs env Sample.outputDir Sample.upload 500 Sample.start in
  probe_outcome env Sample.upload = inr 500
  ∧ encodes (effects (snd (upload_handler env Sample.outputDir
                             (Some Sample.upload) Sample.start)))
    = encodes (effects Sample.start) ++ jobs
  ∧ map spec jobs = availableResolutions 500.
Proof.
  intros env jobs. split; [reflexivity|].
  destruct (one_command_per_rendition env Sample.outputDir Sample.upload 500
              Sample.start eq_refl) as (Hencodes & Hspec & _).
  split; [exact Hencodes | exact Hspec].
Defined.

(** ** Short-circuits of the handler *)

(** X8.  When a job of a request fails, every command of the ladder has
    been launched all the same, the handler makes no store call, and it
    answers 500 with the message of a job that failed. *)
Theorem encode_failure_short_circuits (env : Env)
    (outputDir inputFile : string) (inputHeight : Z) (w : World)
    (job : EncodeJob) (message : string) :
  probe_outcome env inputFile = inr inputHeight →
  job ∈ request_jobs env outputDir inputFile inputHeight w →
  snd (ffmpeg env job) = Some message →
  let w' := snd (upload_handler env outputDir (Some inputFile) w) in
  ∃ failed message',
    failed ∈ request_jobs env outputDir inputFile inputHeight w
    ∧ snd (ffmpeg env failed) = Some message'
    ∧ encodes (effects w')
      = encodes (effects w)
        ++ request_jobs env outputDir inputFile inputHeight w
    ∧ stores (effects w') = stores (effects w)
    ∧ responses (effects w')
      = responses (effects w)
        ++ [(500, ErrorBody "Processing failed" (Some message'))].
Proof.
  intros Hprobe Hin Hfail w'. subst w'.
  destruct (encode_failure_response env outputDir inputFile inputHeight w
              job message Hprobe Hin Hfail)
    as (failed & m & Hfin & Hf & Hresp & Hstores).
  exists failed, m. split; [done|]. split; [done|].
  split; [by apply upload_handler_encodes|]. by split.
Qed.

Lemma encode_failure_short_circuits_witness :
  let env := Sample.encode_fails in
  let jobs := request_jobs env Sample.outputDir Sample.upload 1080
                Sample.start in
  let job :=
    encode_job Sample.upload "/srv/app/output/1700000000000"
      (mkResolution "720p" "1280x720" "2500k") 1700000000002 in
  let w' := snd (upload_handler env Sample.outputDir (Some Sample.upload)
                   Sample.start) in
  probe_outcome env Sample.upload = inr 1080
  ∧ job ∈ jobs
  ∧ snd (ffmpeg env job) = Some "ffmpeg exited with code 1"
  ∧ ∃ failed message',
      failed ∈ jobs
      ∧ snd (ffmpeg env failed) = Some message'
      ∧ encodes (effects w') = encodes (effects Sample.start) ++ jobs
      ∧ stores (effects w') = stores (effects Sample.start)
      ∧ responses (effects w')
        = responses (effects Sample.start)
          ++ [(500, ErrorBody "Processing failed" (Some message'))].
Proof.
  intros env jobs job w'.
  assert (Hin : job ∈ jobs).
  { vm_compute. apply list_elem_of_further, list_elem_of_here. }
  split; [reflexivity|]. split; [exact Hin|]. split; [reflexivity|].
  exact (encode_failure_short_circuits env Sample.outputDir Sample.upload 1080
           Sample.start job _ eq_refl Hin eq_refl).
Defined.

Lemma upload_handler_mkdirs_none env outputDir inputFile error w :
  probe_outcome env inputFile = inl error →
  mkdirs (effects (snd (upload_handler env outputDir (Some inputFile) w)))
  = mkdirs (effects w)
  ∧ encodes (effects (snd (upload_handler env outputDir (Some inputFile) w)))
    = encodes (effects w)
  ∧ stores (effects (snd (upload_handler env outputDir (Some inputFile) w)))
    = stores (effects w).
Proof.
  intros Hprobe.
  destruct (probe_failure_contained env outputDir inputFile error w Hprobe)
    as (_ & (tail & -> & Htail) & _).
  unfold mkdirs, encodes, stores. rewrite !omap_app. simpl.
  destruct Htail as [-> | ->]; simpl; by rewrite !app_nil_r.
Qed.

(** X9.  When the inspection call itself fails, the handler goes straight
    to the response: it answers 500 with the message of that error, makes
    no directory, launches no command, stores nothing and adds no file to
    the disk; the only call after the response is the deletion of the
    upload. *)
Theorem inspection_failure_short_circuits (env : Env)
    (outputDir inputFile message : string) (w : World) :
  ffprobe env inputFile = inl message →
  let w' := snd (upload_handler env outputDir (Some inputFile) w) in
  (∃ deleted,
     effects w'
     = effects w
       ++ [Probe inputFile;
           Respond 500 (ErrorBody "Processing failed" (Some message))]
       ++ map Unlink deleted
     ∧ (deleted = [] ∨ deleted = [inputFile]))
  ∧ mkdirs (effects w') = mkdirs (effects w)
  ∧ encodes (effects w') = encodes (effects w)
  ∧ stores (effects w') = stores (effects w)
  ∧ disk w' ⊆ disk w.
Proof.
  intros Hprobe w'. subst w'.
  pose proof (probe_inspection_error env inputFile message Hprobe) as Hout.
  destruct (probe_failure_contained env outputDir inputFile _ w Hout)
    as (_ & (tail & Heff & Htail) & Hdisk).
  destruct (upload_handler_mkdirs_none env outputDir inputFile _ w Hout)
    as (Hm & He & Hs).
  split; [|by repeat split].
  exists (if decide (tail = []) then [] else [inputFile]).
  rewrite Heff. destruct Htail as [-> | ->]; simpl; auto.
Qed.

Lemma inspection_failure_short_circuits_witness :
  let env :=
    mkEnv Sample.ticking (λ _, inl "ffprobe exited with code 1")
      (λ _, (0%nat, None)) (λ p, inr p) (λ _, None) in
  let w' := snd (upload_handler env Sample.outputDir (Some Sample.upload)
                   Sample.start) in
  ffprobe env Sample.upload = inl "ffprobe exited with code 1"
  ∧ (∃ deleted,
       effects w'
       = effects Sample.start
         ++ [Probe Sample.upload;
             Respond 500 (ErrorBody "Processing failed"
                            (Some "ffprobe exited with code 1"))]
         ++ map Unlink deleted
       ∧ (deleted = [] ∨ deleted = [Sample.upload]))
  ∧ mkdirs (effects w') = mkdirs (effects Sample.start)
  ∧ encodes (effects w') = encodes (effects Sample.start)
  ∧ stores (effects w') = stores (effects Sample.start)
  ∧ disk w' ⊆ disk Sample.start.
Proof.
  intros env w'. split; [reflexivity|].
  exact (inspection_failure_short_circuits env Sample.outputDir Sample.upload
           "ffprobe exited with code 1" Sample.start eq_refl).
Defined.

(** ** Directories and the disk *)

Lemma startup_run outputDir w :
  startup outputDir w =
    (inr tt,
     if bool_decide (outputDir ∈ disk w) then w
     else mkWorld (clock w) ({[outputDir]} ∪ disk w)
            (effects w ++ [Mkdir outputDir]) (console w)).
Proof.
  unfold startup, mkdirSync. run_binds.
  destruct (bool_decide (outputDir ∈ disk w)); simpl; [done|].
  by run_binds.
Qed.

(** X10.  The start-up code leaves the output root on the disk, creating
    it only when it is absent, and removes nothing; run again, it changes
    nothing at all. *)
Theorem startup_is_idempotent (outputDir : string) (w : World) :
  let w1 := snd (startup outputDir w) in
  outputDir ∈ disk w1
  ∧ disk w ⊆ disk w1
  ∧ mkdirs (effects w1)
    = mkdirs (effects w)
      ++ (if bool_decide (outputDir ∈ disk w) then [] else [outputDir])
  ∧ startup outputDir w1 = (inr tt, w1).
Proof.
  intros w1. subst w1. rewrite startup_run. cbn [snd].
  destruct (bool_decide (outputDir ∈ disk w)) eqn:Hpresent.
  - apply bool_decide_eq_true in Hpresent.
    split; [done|]. split; [done|]. split; [by rewrite app_nil_r|].
    rewrite startup_run. by rewrite bool_decide_eq_true_2.
  - split; [cbn [disk]; set_solver|]. split; [cbn [disk]; set_solver|].
    split; [unfold mkdirs; cbn [effects]; by rewrite omap_app|].
    rewrite startup_run. rewrite bool_decide_eq_true_2; [done|].
    cbn [disk]. set_solver.
Qed.

Lemma transcodeVideo_disk env inputFile outputFolder inputHeight w :
  {[outputFolder]} ∪ disk w
  ⊆ disk (snd (transcodeVideo env inputFile outputFolder inputHeight w)).
Proof.
  rewrite transcodeVideo_run, encode_all_run.
  match goal with
  | |- _ ⊆ disk (snd (settle ?e ?p ?a ?w0)) =>
      destruct (settle_world e p a w0) as (_ & _ & Hd)
  end.
  etrans; [|exact Hd]. cbn [disk].
  destruct (bool_decide (outputFolder ∈ disk w)) eqn:Hpresent; [|done].
  apply bool_decide_eq_true in Hpresent. set_solver.
Qed.

Lemma transcodeVideo_mkdirs env inputFile outputFolder inputHeight w :
  mkdirs (effects (snd (transcodeVideo env inputFile outputFolder inputHeight w)))
  = mkdirs (effects w)
    ++ (if bool_decide (outputFolder ∈ disk w) then [] else [outputFolder]).
Proof.
  pose proof (transcodeVideo_world env inputFile outputFolder inputHeight w) as Heff.
  cbv zeta in Heff. rewrite Heff. unfold mkdirs. rewrite !omap_app.
  assert (Hjobs : ∀ jobs : list EncodeJob,
            omap (λ e, match e with Mkdir p => Some p | _ => None end)
              (map Encode jobs) = []) by (intros jobs; by induction jobs).
  rewrite Hjobs, app_nil_r. by destruct (bool_decide _).
Qed.

(** X11.  When its output folder already exists, [transcodeVideo] calls
    no [mkdirSync]: its only effects are the ffmpeg launches, one per
    ladder entry.  The folder, like every other path, is still on the disk
    afterwards, whether the jobs end or fail, so that a later call on the same
    folder makes no directory either. *)
Theorem existing_output_folder_is_reused (env : Env)
    (inputFile outputFolder : string) (inputHeight : Z) (w : World)
    (inputFile' : string) (inputHeight' : Z) :
  outputFolder ∈ disk w →
  let w1 := snd (transcodeVideo env inputFile outputFolder inputHeight w) in
  let w2 := snd (transcodeVideo env inputFile' outputFolder inputHeight' w1) in
  outputFolder ∈ disk w1
  ∧ disk w ⊆ disk w1
  ∧ effects w1
    = effects w
      ++ map Encode
           (launched env inputFile outputFolder
              (availableResolutions inputHeight) (clock w))
  ∧ mkdirs (effects w1) = mkdirs (effects w)
  ∧ mkdirs (effects w2) = mkdirs (effects w).
Proof.
  intros Hpresent w1 w2. subst w1 w2.
  pose proof (transcodeVideo_disk env inputFile outputFolder inputHeight w) as Hd.
  assert (Hin : outputFolder
                ∈ disk (snd (transcodeVideo env inputFile outputFolder
                               inputHeight w))).
  { apply Hd. set_solver. }
  assert (Hnone : mkdirs (effects (snd (transcodeVideo env inputFile
                                          outputFolder inputHeight w)))
                  = mkdirs (effects w)).
  { rewrite transcodeVideo_mkdirs.
    rewrite bool_decide_eq_true_2 by done. by rewrite app_nil_r. }
  split; [done|]. split; [set_solver|].
  split.
  { pose proof (transcodeVideo_world env inputFile outputFolder inputHeight w)
      as Heff.
    cbv zeta in Heff. rewrite Heff.
    by rewrite bool_decide_eq_true_2 by done. }
  split; [done|].
  rewrite transcodeVideo_mkdirs.
  rewrite bool_decide_eq_true_2 by done. by rewrite app_nil_r.
Qed.

Lemma existing_output_folder_is_reused_witness :
  let env := Sample.encode_fails in
  let outputFolder := "/srv/app/output/1700000000000" in
  let w := mkWorld 0 {[outputFolder]} [] [] in
  let w1 := snd (transcodeVideo env Sample.upload outputFolder 1080 w) in
  let w2 := snd (transcodeVideo env Sample.upload outputFolder 480 w1) in
  outputFolder ∈ disk w
  ∧ outputFolder ∈ disk w1
  ∧ disk w ⊆ disk w1
  ∧ effects w1
    = effects w
      ++ map Encode
           (launched env Sample.upload outputFolder
              (availableResolutions 1080) (clock w))
  ∧ mkdirs (effects w1) = mkdirs (effects w)
  ∧ mkdirs (effects w2) = mkdirs (effects w).
Proof.
  intros env outputFolder w w1 w2.
  assert (Hpresent : outputFolder ∈ disk w).
  { change (outputFolder ∈ ({[outputFolder]} : gset string)).
    apply elem_of_singleton_2; reflexivity. }
  split; [exact Hpresent|].
  exact (existing_output_folder_is_reused env Sample.upload outputFolder 1080
           w Sample.upload 480 Hpresent).
Defined.

(** X12.  The handler removes nothing from the disk but the upload: every
    other path that exists when a request arrives, or that the pipeline
    has created, still exists when the handler is done.  A request without
    a file leaves the disk as it is. *)
Theorem handler_deletes_only_upload (env : Env) (outputDir inputFile : string)
    (w : World) :
  disk w ∖ {[inputFile]}
  ⊆ disk (snd (upload_handler env outputDir (Some inputFile) w))
  ∧ disk (snd (pipeline env inputFile (request_folder env outputDir w)
                 (ticked w))) ∖ {[inputFile]}
    ⊆ disk (snd (upload_handler env outputDir (Some inputFile) w))
  ∧ disk (snd (upload_handler env outputDir None w)) = disk w.
Proof.
  destruct (quiet_pipeline env inputFile (request_folder env outputDir w) (ticked w))
    as (Hdisk & _).
  cbn [ticked disk] in Hdisk.
  assert (Hkept : disk (snd (pipeline env inputFile (request_folder env outputDir w)
                               (ticked w))) ∖ {[inputFile]}
                  ⊆ disk (snd (upload_handler env outputDir (Some inputFile) w))).
  { rewrite upload_handler_run. cbn [snd]. unfold cleaned.
    destruct (bool_decide _); [destruct (unlink env inputFile)|];
      cbn [disk answered]; set_solver. }
  split; [|split; [done|done]].
  etrans; [|exact Hkept]. set_solver.
Qed.

(** ** The mapping under repeated names *)

Lemma last_named_snoc key transcodedFiles file :
  last_named key (transcodedFiles ++ [file])
  = if String.eqb (Transcoded.name file) key then Some file
    else last_named key transcodedFiles.
Proof. unfold last_named. by rewrite foldl_app. Qed.

Lemma published_snoc env transcodedFiles file ipfsCIDs :
  published env (transcodedFiles ++ [file]) ipfsCIDs
  = match pinata env (Transcoded.path file) with
    | inr ipfsHash =>
        <[Transcoded.name file := mkPinned ipfsHash]>
          (published env transcodedFiles ipfsCIDs)
    | inl _ => published env transcodedFiles ipfsCIDs
    end.
Proof. unfold published. by rewrite foldl_app. Qed.

(** X13.  When the store accepts every file and no file is named
    ["__proto__"] (the one name whose assignment on a plain object adds no
    key), the loop returns a mapping in which each name carries the
    identifier of the last file of that name (a later file overwrites an
    earlier one of the same name), and the other keys keep what they had.
    The key ["__proto__"] itself is left out of the statement. *)
Theorem publish_last_wins (env : Env) (transcodedFiles : list Transcoded.t)
    (ipfsCIDs : gmap string Pinned) (w : World) :
  Forall (stored env) transcodedFiles →
  Forall (λ file, Transcoded.name file ≠ "__proto__") transcodedFiles →
  ∃ result,
    fst (publish env transcodedFiles ipfsCIDs w) = inr result
    ∧ ∀ key,
        key ≠ "__proto__" →
        match last_named key transcodedFiles with
        | Some file =>
            Transcoded.name file = key
            ∧ file ∈ transcodedFiles
            ∧ ∃ ipfsHash,
                pinata env (Transcoded.path file) = inr ipfsHash
                ∧ result !! key = Some (mkPinned ipfsHash)
        | None => result !! key = ipfsCIDs !! key
        end.
Proof.
  intros Hall _. exists (published env transcodedFiles ipfsCIDs).
  split; [by destruct (publish_ok env transcodedFiles ipfsCIDs w Hall)|].
  intros key _. clear w.
  induction transcodedFiles as [|file rest IH] using rev_ind; [done|].
  apply Forall_app in Hall as [Hrest Hfile].
  apply Forall_cons in Hfile as [Hfile _]. unfold stored in Hfile.
  rewrite last_named_snoc, published_snoc.
  destruct (pinata env (Transcoded.path file)) as [message|ipfsHash] eqn:Hstore;
    [by destruct Hfile|].
  destruct (String.eqb_spec (Transcoded.name file) key) as [Hkey|Hkey].
  - split; [done|]. split; [apply elem_of_app; right; apply list_elem_of_here|].
    exists ipfsHash. split; [done|]. by rewrite Hkey, lookup_insert_eq.
  - specialize (IH Hrest). rewrite lookup_insert_ne by done.
    destruct (last_named key rest) as [found|]; [|done].
    destruct IH as (Hname & Hin & Hhash).
    split; [done|]. split; [apply elem_of_app; by left | done].
Qed.

Lemma publish_last_wins_witness :
  let first := Transcoded.mk "video_360p_1.mp4" "/out/a/video_360p_1.mp4" in
  let second := Transcoded.mk "video_360p_1.mp4" "/out/b/video_360p_1.mp4" in
  let env := Sample.healthy 360 in
  Forall (stored env) [first; second]
  ∧ Forall (λ file, Transcoded.name file ≠ "__proto__") [first; second]
  ∧ ∃ result,
      fst (publish env [first; second] ∅ Sample.start) = inr result
      ∧ ∀ key,
          key ≠ "__proto__" →
          match last_named key [first; second] with
          | Some file =>
              Transcoded.name file = key
              ∧ file ∈ [first; second]
              ∧ ∃ ipfsHash,
                  pinata env (Transcoded.path file) = inr ipfsHash
                  ∧ result !! key = Some (mkPinned ipfsHash)
          | None => result !! key = (∅ : gmap string Pinned) !! key
          end.
Proof.
  intros first second env.
  assert (Hall : Forall (stored env) [first; second]).
  { repeat constructor; by eexists. }
  assert (Hplain : Forall (λ file, Transcoded.name file ≠ "__proto__")
                      [first; second]).
  { repeat constructor; discriminate. }
  split; [exact Hall|]. split; [exact Hplain|].
  exact (publish_last_wins env [first; second] ∅ Sample.start Hall Hplain).
Defined.

(** The second of two files of one name is the one that is kept. *)
Example sample_repeated_name :
  let first := Transcoded.mk "video_360p_1.mp4" "/out/a/video_360p_1.mp4" in
  let second := Transcoded.mk "video_360p_1.mp4" "/out/b/video_360p_1.mp4" in
  ∃ result,
    fst (publish (Sample.healthy 360) [first; second] ∅ Sample.start)
    = inr result
    ∧ result !! "video_360p_1.mp4"
      = Some (mkPinned "Qm/out/b/video_360p_1.mp4")
    ∧ base.size result = 1%nat.
Proof. eexists. split; [reflexivity|]. split; vm_compute; reflexivity. Qed.

(** ** A request in which everything succeeds *)

(** X14.  When the probe, every job and every store call succeed, the
    handler submits the files to the store in the order in which their
    jobs completed, each file once; the launches follow the ladder order
    instead. *)
Theorem stores_follow_completion_order (env : Env)
    (outputDir inputFile : string) (inputHeight : Z) (w : World) :
  let jobs := request_jobs env outputDir inputFile inputHeight w in
  probe_outcome env inputFile = inr inputHeight →
  Forall (ended env) jobs →
  Forall (λ job, stored env (transcoded job)) jobs →
  let w' := snd (upload_handler env outputDir (Some inputFile) w) in
  stores (effects w')
  = stores (effects w) ++ map outputFilePath (completion_order env jobs)
  ∧ completion_order env jobs ≡ₚ jobs
  ∧ NoDup (map outputFilePath (completion_order env jobs))
  ∧ encodes (effects w') = encodes (effects w) ++ jobs.
Proof.
  intros jobs Hprobe Hended Hstored w'. subst w'.
  pose proof (completion_order_perm env jobs) as Hperm.
  assert (Hall : Forall (stored env) (map transcoded (completion_order env jobs))).
  { apply Forall_forall. intros file.
    change (map transcoded ?l) with (transcoded <$> l).
    intros (job & -> & Hjob)%list_elem_of_fmap.
    rewrite Forall_forall in Hstored. apply Hstored. by rewrite <- Hperm. }
  split; [|split; [done|split]].
  - rewrite (upload_handler_stores env outputDir inputFile inputHeight w
               (map transcoded (completion_order env jobs)) Hprobe
               (join_outcome_ok env jobs Hended)).
    destruct (publish_ok env _ ∅ w Hall) as [_ ->].
    by rewrite map_map.
  - rewrite Hperm. apply ladder_paths_NoDup.
  - by apply upload_handler_encodes.
Qed.

Lemma stores_follow_completion_order_witness :
  let env := Sample.healthy 1080 in
  let jobs := request_jobs env Sample.outputDir Sample.upload 1080
                Sample.start in
  let w' := snd (upload_handler env Sample.outputDir (Some Sample.upload)
                   Sample.start) in
  probe_outcome env Sample.upload = inr 1080
  ∧ Forall (ended env) jobs
  ∧ Forall (λ job, stored env (transcoded job)) jobs
  ∧ stores (effects w')
    = stores (effects Sample.start)
      ++ map outputFilePath (completion_order env jobs)
  ∧ completion_order env jobs ≡ₚ jobs
  ∧ NoDup (map outputFilePath (completion_order env jobs))
  ∧ encodes (effects w') = encodes (effects Sample.start) ++ jobs.
Proof.
  intros env jobs w'.
  assert (Hended : Forall (ended env) jobs) by repeat constructor.
  assert (Hstored : Forall (λ job, stored env (transcoded job)) jobs).
  { repeat constructor; by eexists. }
  split; [reflexivity|]. split; [exact Hended|]. split; [exact Hstored|].
  exact (stores_follow_completion_order env Sample.outputDir Sample.upload
           1080 Sample.start eq_refl Hended Hstored).
Defined.

(** ** One response for every request *)


(** ** Requests with different folder names *)

(** X16.  Two requests whose folders are named after different readings of
    the clock never write to the same path, whichever renditions and
    uploads they have and whatever the later readings are. *)
Theorem distinct_folders_never_collide (env1 env2 : Env)
    (outputDir inputFile1 inputFile2 : string) (inputHeight1 inputHeight2 : Z)
    (w1 w2 : World) (job1 job2 : EncodeJob) :
  date_now env1 (clock w1) ≠ date_now env2 (clock w2) →
  job1 ∈ request_jobs env1 outputDir inputFile1 inputHeight1 w1 →
  job2 ∈ request_jobs env2 outputDir inputFile2 inputHeight2 w2 →
  outputFilePath job1 ≠ outputFilePath job2.
Proof.
  intros Hne Hjob1 Hjob2.
  destruct (elem_of_launched _ _ _ _ _ _ Hjob1) as (r1 & t1 & _ & ->).
  destruct (elem_of_launched _ _ _ _ _ _ Hjob2) as (r2 & t2 & _ & ->).
  by apply distinct_tokens_distinct_paths.
Qed.

Lemma distinct_folders_never_collide_witness :
  let env1 := Sample.same_millisecond in
  let env2 := Sample.healthy 360 in
  let w2 := mkWorld 5 ∅ [] [] in
  let job1 :=
    encode_job "uploads/3f9a6c" "/srv/app/output/1700000000000"
      (mkResolution "360p" "640x360" "600k") 1700000000000 in
  let job2 :=
    encode_job "uploads/b41d07" "/srv/app/output/1700000000005"
      (mkResolution "360p" "640x360" "600k") 1700000000006 in
  date_now env1 (clock Sample.start) ≠ date_now env2 (clock w2)
  ∧ job1 ∈ request_jobs env1 Sample.outputDir "uploads/3f9a6c" 360 Sample.start
  ∧ job2 ∈ request_jobs env2 Sample.outputDir "uploads/b41d07" 360 w2
  ∧ outputFilePath job1 ≠ outputFilePath job2.
Proof.
  intros env1 env2 w2 job1 job2.
  assert (Hne : date_now env1 (clock Sample.start) ≠ date_now env2 (clock w2))
    by discriminate.
  assert (Hjob1 : job1 ∈ request_jobs env1 Sample.outputDir "uploads/3f9a6c"
                           360 Sample.start).
  { vm_compute. apply list_elem_of_here. }
  assert (Hjob2 : job2 ∈ request_jobs env2 Sample.outputDir "uploads/b41d07"
                           360 w2).
  { vm_compute. apply list_elem_of_here. }
  split; [exact Hne|]. split; [exact Hjob1|]. split; [exact Hjob2|].
  exact (distinct_folders_never_collide env1 env2 Sample.outputDir _ _ 360 360
           Sample.start w2 job1 job2 Hne Hjob1 Hjob2).
Defined.

(** ** What a 200 response implies *)

Lemma join_outcome_inr env jobs transcodedFiles :
  join_outcome env jobs = inr transcodedFiles →
  Forall (ended env) jobs
  ∧ transcodedFiles = map transcoded (completion_order env jobs).
Proof.
  intros Hjoin.
  assert (Hended : Forall (ended env) jobs).
  { apply Forall_forall. intros job Hjob. unfold ended.
    destruct (snd (ffmpeg env job)) as [message|] eqn:Hjobout; [|done].
    destruct (join_outcome_fail env jobs job message Hjob Hjobout)
      as (_ & _ & m & _ & _ & _ & _ & _ & Hfail).
    congruence. }
  split; [done|].
  rewrite (join_outcome_ok env jobs Hended) in Hjoin. congruence.
Qed.

Lemma publish_inr env transcodedFiles ipfsCIDs w result :
  fst (publish env transcodedFiles ipfsCIDs w) = inr result →
  Forall (stored env) transcodedFiles.
Proof.
  revert ipfsCIDs w.
  induction transcodedFiles as [|file rest IH]; intros ipfsCIDs w; simpl.
  - constructor.
  - run_binds. unfold uploadToPinata. run_binds.
    destruct (pinata env (Transcoded.path file)) as [message|ipfsHash] eqn:Hstore;
      run_binds; [done|].
    intros Hrest. constructor; [|by eapply IH].
    unfold stored. by rewrite Hstore.
Qed.

(** X17.  The handler never answers 200 on a part of the work: a 200
    response implies that the probe returned a height, that every command
    of the ladder ended, that the store accepted every file, and the
    [files] mapping then has exactly one key per ladder entry. *)
Theorem complete_response_is_complete (env : Env)
    (outputDir inputFile : string) (w : World) (message : string)
    (ipfsCIDs : gmap string Pinned) :
  responses (effects (snd (upload_handler env outputDir (Some inputFile) w)))
  = responses (effects w) ++ [(200, CompleteBody message ipfsCIDs)] →
  ∃ inputHeight,
    probe_outcome env inputFile = inr inputHeight
    ∧ Forall (ended env) (request_jobs env outputDir inputFile inputHeight w)
    ∧ Forall (λ job, stored env (transcoded job))
        (request_jobs env outputDir inputFile inputHeight w)
    ∧ message = "Processing complete"
    ∧ base.size ipfsCIDs = length (availableResolutions inputHeight)
    ∧ ∀ key, is_Some (ipfsCIDs !! key) ↔
        key ∈ map outputFileName
                (request_jobs env outputDir inputFile inputHeight w).
Proof.
  rewrite upload_handler_responses. intros Hresp.
  apply app_inv_head in Hresp. injection Hresp as Hresp.
  unfold pipeline_outcome in Hresp.
  destruct (probe_outcome env inputFile) as [error|inputHeight]; [done|].
  exists inputHeight. split; [done|].
  fold (request_jobs env outputDir inputFile inputHeight w) in Hresp.
  set (jobs := request_jobs env outputDir inputFile inputHeight w) in *.
  destruct (join_outcome env jobs) as [error|transcodedFiles] eqn:Hjoin; [done|].
  destruct (join_outcome_inr env jobs transcodedFiles Hjoin) as [Hended ->].
  unfold publish_outcome in Hresp.
  destruct (fst (publish env _ ∅ (mkWorld 0 ∅ [] []))) as [error|result] eqn:Hpub;
    [done|].
  simpl in Hresp. injection Hresp as <- <-.
  pose proof (publish_inr env _ _ _ _ Hpub) as Hstored.
  destruct (publish_ok env _ ∅ (mkWorld 0 ∅ [] []) Hstored) as [Hres _].
  rewrite Hpub in Hres. injection Hres as ->.
  pose proof (completion_order_perm env jobs) as Hperm.
  assert (Hnames : map Transcoded.name (map transcoded (completion_order env jobs))
                   ≡ₚ map outputFileName jobs).
  { rewrite map_map.
    change (map (λ x, Transcoded.name (transcoded x)) (completion_order env jobs))
      with (map outputFileName (completion_order env jobs)).
    by rewrite Hperm. }
  split; [done|]. split; [|split; [done|split]].
  - apply Forall_forall. intros job Hjob. rewrite Forall_forall in Hstored.
    apply Hstored. change (map transcoded ?l) with (transcoded <$> l).
    apply list_elem_of_fmap. exists job. split; [done|]. by rewrite Hperm.
  - rewrite published_size; [|done|].
    + rewrite length_map, Hperm. apply launched_length.
    + rewrite Hnames. apply ladder_names_NoDup.
  - intros key. rewrite <- elem_of_dom, published_dom by done.
    rewrite dom_empty_L, (right_id_L ∅ (∪)), elem_of_list_to_set.
    by rewrite Hnames.
Qed.

Lemma sample_complete_response :
  ∃ ipfsCIDs,
    responses (effects (snd (upload_handler (Sample.healthy 500)
                               Sample.outputDir (Some Sample.upload)
                               Sample.start)))
    = responses (effects Sample.start)
      ++ [(200, CompleteBody "Processing complete" ipfsCIDs)].
Proof. eexists. vm_compute. reflexivity. Defined.

Lemma complete_response_is_complete_witness :
  let env := Sample.healthy 500 in
  let w' := snd (upload_handler env Sample.outputDir (Some Sample.upload)
                   Sample.start) in
  ∃ ipfsCIDs,
    responses (effects w')
    = responses (effects Sample.start)
      ++ [(200, CompleteBody "Processing complete" ipfsCIDs)]
    ∧ ∃ inputHeight,
        probe_outcome env Sample.upload = inr inputHeight
        ∧ base.size ipfsCIDs = length (availableResolutions inputHeight).
Proof.
  intros env w'.
  destruct (sample_complete_response) as (ipfsCIDs & Hresp).
  exists ipfsCIDs. split; [exact Hresp|].
  destruct (complete_response_is_complete env Sample.outputDir Sample.upload
              Sample.start _ ipfsCIDs Hresp)
    as (inputHeight & Hprobe & _ & _ & _ & Hsize & _).
  exists inputHeight. split; [exact Hprobe | exact Hsize].
Defined.
